(** * Checkers: the board and the rules of the game

    A shallow embedding of [board.js], [checker.js], [boardEvent.js] and
    [rules.js].  Coordinates and directions are JavaScript numbers that the
    program only ever adds, subtracts and halves after a parity test; they
    are integers here.  Checkers are objects shared between the grid, the
    callers and the event payloads, so they live in a store addressed by
    reference. *)

From Stdlib Require Import ZArith Lia.
From stdpp Require Import gmap strings list fin_maps functions.
From stdpp Require sorting.

Local Open Scope Z_scope.

(** ** Results of a call

    A call returns a value or throws.  The only exception the program can
    raise is the [TypeError] of reading a property of [undefined]; the
    board a throwing call leaves behind is not kept.  [OutOfFuel] is not a
    JavaScript outcome: it marks a recursion that the fuel given to it did
    not let finish.  An [alert] opens a dialog and returns: it changes
    nothing here. *)

Inductive res (A : Type) : Type :=
| Ok (a : A)
| TypeError
| OutOfFuel.
Arguments Ok {A} a.
Arguments TypeError {A}.
Arguments OutOfFuel {A}.

#[global] Instance res_ret : MRet res := λ A a, Ok a.
#[global] Instance res_bind : MBind res := λ A B f m,
  match m with
  | Ok a => f a
  | TypeError => TypeError
  | OutOfFuel => OutOfFuel
  end.

(** A [for] loop over an array whose body may throw. *)
Fixpoint forEach {A B : Type} (body : B → A → res B) (l : list A) (acc : B) : res B :=
  match l with
  | [] => Ok acc
  | x :: l' => acc' ← body acc x; forEach body l' acc'
  end.

(** ** checker.js *)

Definition loc := nat.

Module Checker.
(** [this.row; this.col;] in the constructor declare nothing: both
    fields are [undefined] until the board writes them, always together. *)
Record t := mk {
  color : string;
  isKing : bool;
  pos : option (Z * Z)
}.
Definition row (ch : t) : option Z := fst <$> pos ch.
Definition col (ch : t) : option Z := snd <$> pos ch.
Definition new (color : string) (isKing : bool) : t := mk color isKing None.
End Checker.

(** ** boardEvent.js *)

Inductive Details : Type :=
| AddDetails (checker : loc) (row col : Z)
| MoveDetails (checker : loc) (toRow toCol : Z) (fromRow fromCol : option Z)
| RemoveDetails (checker : loc) (row col : option Z)
| PromoteDetails (checker : loc).

Definition details_checker (d : Details) : loc :=
  match d with
  | AddDetails l _ _ | MoveDetails l _ _ _ _ | RemoveDetails l _ _ | PromoteDetails l => l
  end.

Record BoardEvent := mkBoardEvent { type : string; details : Details }.

(** ** board.js: representation *)

(** What a handler called at dispatch time is given, and what it reads in
    the fields of the event's checker at that moment. *)
Record Dispatch := mkDispatch { event : BoardEvent; observed : Checker.t }.

(** [square] is an array of [boardSize + 1] sparse rows (the constructor's
    loop runs while [i <= boardSize]); rows are never added or removed, so
    the grid is the finite map of its occupied cells and [has_row] tells
    which first indices name a row. *)
Record Board := mkBoard {
  boardSize : Z;
  square : gmap (Z * Z) loc;
  heap : loc → Checker.t;
  dispatched : list Dispatch
}.

Definition newBoard (size : Z) (h : loc → Checker.t) : Board :=
  mkBoard size ∅ h [].

Definition has_row (b : Board) (r : Z) : bool :=
  (0 <=? r) && (r <=? boardSize b).

Definition with_square (b : Board) (sq : gmap (Z * Z) loc) : Board :=
  mkBoard (boardSize b) sq (heap b) (dispatched b).

Definition with_heap (b : Board) (h : loc → Checker.t) : Board :=
  mkBoard (boardSize b) (square b) h (dispatched b).

(** [this.square[row][col]] read, written and deleted.  A missing row is
    [undefined], and indexing it throws. *)
Definition read_square (b : Board) (row col : Z) : res (option loc) :=
  if has_row b row then Ok (square b !! (row, col)) else TypeError.

Definition write_square (b : Board) (row col : Z) (checker : loc) : res Board :=
  if has_row b row then Ok (with_square b (<[(row, col) := checker]> (square b)))
  else TypeError.

Definition delete_square (b : Board) (p : option (Z * Z)) : res Board :=
  match p with
  | None => TypeError
  | Some (row, col) =>
      if has_row b row then Ok (with_square b (delete (row, col) (square b)))
      else TypeError
  end.

(** [checkRep] only reads the board and raises an alert for each cell
    whose checker records another position; it is the test below.
    [doCheckRep] is set to [true] once and never written. *)
Definition checkRep (b : Board) : bool :=
  bool_decide (map_Forall (λ rc l, Checker.pos (heap b l) = Some rc) (square b)).

Definition isValidLocation (b : Board) (row col : Z) : bool :=
  if (row <? 0) || (col <? 0) || (row >=? boardSize b) || (col >=? boardSize b)
  then false else true.

Definition getCheckerAt (b : Board) (row col : Z) : res (option loc) :=
  if isValidLocation b row col then read_square b row col
  else Ok None.

Definition isEmptyLocation (b : Board) (row col : Z) : res bool :=
  c ← getCheckerAt b row col;
  match c with
  | Some _ => Ok false
  | None => Ok true
  end.

(** ** board.js: events *)

(** The handlers belong to the presentation layer and are taken to read
    the board only; a dispatch is recorded in the order it happens, with
    what its handlers read in the checker of the event. *)
Definition dispatchBoardEvent (b : Board) (ty : string) (d : Details) : Board :=
  mkBoard (boardSize b) (square b) (heap b)
          (dispatched b ++ [mkDispatch (mkBoardEvent ty d) (heap b (details_checker d))]).

(** ** board.js: mutators *)

Definition set_pos (b : Board) (checker : loc) (row col : Z) : Board :=
  let ch := heap b checker in
  with_heap b (<[checker := Checker.mk (Checker.color ch) (Checker.isKing ch) (Some (row, col))]> (heap b)).

Definition canBeKing (b : Board) (checker : loc) (row col : Z) : bool :=
  if String.eqb (Checker.color (heap b checker)) "red"
  then row =? boardSize b - 1
  else row =? 0.

Definition promote (b : Board) (checker : loc) : Board :=
  let ch := heap b checker in
  let b1 := with_heap b (<[checker := Checker.mk (Checker.color ch) true (Checker.pos ch)]> (heap b)) in
  dispatchBoardEvent b1 "promote" (PromoteDetails checker).

Definition add (b : Board) (checker : loc) (row col : Z) : res Board :=
  e ← isEmptyLocation b row col;
  if e : bool then
    let details := AddDetails checker row col in
    let b1 := set_pos b checker row col in
    b2 ← write_square b1 row col checker;
    Ok (dispatchBoardEvent b2 "add" details)
  else Ok b.

Definition moveTo (b : Board) (checker : loc) (toRow toCol : Z) : res Board :=
  e ← isEmptyLocation b toRow toCol;
  if e : bool then
    let ch := heap b checker in
    let details := MoveDetails checker toRow toCol (Checker.row ch) (Checker.col ch) in
    b1 ← delete_square b (Checker.pos ch);
    b2 ← write_square b1 toRow toCol checker;
    let b3 := if canBeKing b2 checker toRow toCol then promote b2 checker else b2 in
    let b4 := set_pos b3 checker toRow toCol in
    Ok (dispatchBoardEvent b4 "move" details)
  else Ok b.

Definition remove (b : Board) (checker : loc) : res Board :=
  let ch := heap b checker in
  let details := RemoveDetails checker (Checker.row ch) (Checker.col ch) in
  b1 ← delete_square b (Checker.pos ch);
  Ok (dispatchBoardEvent b1 "remove" details).

(** ** rules.js: the shapes of its records *)

Module Jump.
Record t := mk { killedCol : Z; killedRow : Z; col : Z; row : Z }.
Definition killed (j : t) : Z * Z := (killedRow j, killedCol j).
End Jump.

Module Captured.
Record t := mk { row : Z; col : Z; color : string; isKing : bool }.
End Captured.

Module Move.
Record t := mk { to_col : Z; to_row : Z; remove : list Captured.t }.
End Move.

(** The object [makeMove] returns is the chosen candidate with three more
    fields written into it. *)
Module Ramifications.
Record t := mk {
  to_col : Z;
  to_row : Z;
  remove : list Captured.t;
  from_col : option Z;
  from_row : option Z;
  made_king : bool
}.
End Ramifications.

(** ** rules.js: jumps *)

(** The midpoint is a halving of floating-point numbers in the source.
    It is only computed after both distances were found to be 2 in
    absolute value, or for a destination two away from the start, so the
    sum is even and the integer quotient is exact. *)
Definition isValidJump (b : Board) (checker : loc)
    (fromRow fromCol toRow toCol playerDirection : Z) : res bool :=
  if negb (isValidLocation b toRow toCol) then Ok false else
  e ← isEmptyLocation b toRow toCol;
  if negb e then Ok false else
  if ((toRow - fromRow) * playerDirection <? 0) && negb (Checker.isKing (heap b checker))
  then Ok false else
  if negb (Z.abs (toRow - fromRow) =? 2) then Ok false else
  if negb (Z.abs (toCol - fromCol) =? 2) then Ok false else
  e' ← isEmptyLocation b ((toRow + fromRow) / 2) ((toCol + fromCol) / 2);
  if e' : bool then Ok false else
  c ← getCheckerAt b ((toRow + fromRow) / 2) ((toCol + fromCol) / 2);
  match c with
  | None => TypeError
  | Some other =>
      if String.eqb (Checker.color (heap b other)) (Checker.color (heap b checker))
      then Ok false else Ok true
  end.

Definition alreadyJumpedPiece (jumpSeq : list Jump.t) (row col : Z) : bool :=
  foldl (λ alreadyJumped j,
           if (col =? Jump.killedCol j) && (row =? Jump.killedRow j) then true
           else alreadyJumped)
        false jumpSeq.

Definition copyJumpSequence (jumpSeq : list Jump.t) : list Jump.t :=
  foldl (λ newJumpSeq j, newJumpSeq ++ [j]) [] jumpSeq.

Definition possibleDestinations (curRow curCol : Z) : list (Z * Z) :=
  [(curRow + 2, curCol + 2); (curRow + 2, curCol - 2);
   (curRow - 2, curCol + 2); (curRow - 2, curCol - 2)].

(** One turn of the loop over the possible destinations; [recur] is the
    recursive call. *)
Definition jumpTo (recur : list Jump.t → Z → Z → res (list (list Jump.t)))
    (b : Board) (checker : loc) (playerDirection : Z) (jumpSeq : list Jump.t)
    (curRow curCol : Z) (retSeqs : list (list Jump.t)) (dest : Z * Z)
    : res (list (list Jump.t)) :=
  let toRow := dest.1 in
  let toCol := dest.2 in
  v ← isValidJump b checker curRow curCol toRow toCol playerDirection;
  if v : bool then
    let jumped := Jump.mk ((curCol + toCol) / 2) ((curRow + toRow) / 2) toCol toRow in
    if negb (alreadyJumpedPiece jumpSeq (Jump.killedRow jumped) (Jump.killedCol jumped)) then
      let newJumpSeq := copyJumpSequence jumpSeq ++ [jumped] in
      futureJumps ← recur newJumpSeq toRow toCol;
      let retSeqs' := foldl (λ r f, r ++ [f]) retSeqs futureJumps in
      let lastCopy := copyJumpSequence jumpSeq ++ [jumped] in
      Ok (retSeqs' ++ [lastCopy])
    else Ok retSeqs
  else Ok retSeqs.

Fixpoint validJumpsFor_fuel (fuel : nat) (b : Board) (checker : loc)
    (playerDirection : Z) (jumpSeq : list Jump.t) (curRow curCol : Z)
    : res (list (list Jump.t)) :=
  match fuel with
  | O => OutOfFuel
  | S fuel' =>
      forEach
        (jumpTo (validJumpsFor_fuel fuel' b checker playerDirection)
                b checker playerDirection jumpSeq curRow curCol)
        (possibleDestinations curRow curCol) []
  end.

(** Every recursive call captures one more occupied square, so one unit
    of fuel per occupied cell, and one for the outermost call, is enough:
    the search never ends in [OutOfFuel]. *)
Definition validJumpsFor (b : Board) (checker : loc) (playerDirection : Z)
    (jumpSeq : list Jump.t) (curRow curCol : Z) : res (list (list Jump.t)) :=
  validJumpsFor_fuel (S (size (square b))) b checker playerDirection jumpSeq curRow curCol.

(** ** rules.js: moves *)

Definition collapseJumpSequence (b : Board) (jumpSequence : list Jump.t) : res Move.t :=
  match list.last jumpSequence with
  | None => TypeError
  | Some final =>
      captured ← forEach
        (λ acc j,
           c ← getCheckerAt b (Jump.killedRow j) (Jump.killedCol j);
           c' ← getCheckerAt b (Jump.killedRow j) (Jump.killedCol j);
           match c, c' with
           | Some other, Some other' =>
               Ok (acc ++ [Captured.mk (Jump.killedRow j) (Jump.killedCol j)
                                       (Checker.color (heap b other))
                                       (Checker.isKing (heap b other'))])
           | _, _ => TypeError
           end)
        jumpSequence [];
      Ok (Move.mk (Jump.col final) (Jump.row final) captured)
  end.

(** The assertion on [playerDirection] only raises an alert.  With
    [checker.row] undefined the first test of the first loop is
    [isValidLocation(NaN, NaN)], which is [true] because every comparison
    with [NaN] is [false]; [isEmptyLocation] then reads [square[NaN][NaN]]
    and throws. *)
Definition validMovesFor (b : Board) (checker : loc) (playerDirection : Z)
    : res (list Move.t) :=
  match Checker.pos (heap b checker) with
  | None => TypeError
  | Some (row, col) =>
      forward ← forEach
        (λ validMoves i,
           if negb (i =? 0) then
             if isValidLocation b (row + playerDirection) (col + i) then
               e ← isEmptyLocation b (row + playerDirection) (col + i);
               if e : bool
               then Ok (validMoves ++ [Move.mk (col + i) (row + playerDirection) []])
               else Ok validMoves
             else Ok validMoves
           else Ok validMoves)
        [-1; 0; 1] [];
      backward ← forEach
        (λ validMoves i,
           if negb (i =? 0) then
             if isValidLocation b (row - playerDirection) (col + i) then
               e ← isEmptyLocation b (row - playerDirection) (col + i);
               if e && Checker.isKing (heap b checker)
               then Ok (validMoves ++ [Move.mk (col + i) (row - playerDirection) []])
               else Ok validMoves
             else Ok validMoves
           else Ok validMoves)
        [-1; 0; 1] forward;
      jumps ← validJumpsFor b checker playerDirection [] row col;
      forEach
        (λ validMoves jump,
           m ← collapseJumpSequence b jump;
           Ok (validMoves ++ [m]))
        jumps backward
  end.

Definition matches (toRow toCol : Z) (m : Move.t) : bool :=
  (Move.to_col m =? toCol) && (Move.to_row m =? toRow).

Definition ramificationsOfMove (b : Board) (checker : loc)
    (turnDirection playerDirection toRow toCol : Z) : res (option Move.t) :=
  if negb (playerDirection =? turnDirection) then Ok None else
  validMoves ← validMovesFor b checker playerDirection;
  Ok (List.find (matches toRow toCol) validMoves).

(** [board.remove(board.getCheckerAt(row, col))]: on an empty square the
    argument is [undefined] and [remove] throws on reading its [row]. *)
Definition removeAtSquare (b : Board) (c : Captured.t) : res Board :=
  o ← getCheckerAt b (Captured.row c) (Captured.col c);
  match o with
  | None => TypeError
  | Some dead => remove b dead
  end.

Definition makeMove (b : Board) (checker : loc)
    (turnDirection playerDirection toRow toCol : Z)
    : res (option Ramifications.t * Board) :=
  ramifications ← ramificationsOfMove b checker turnDirection playerDirection toRow toCol;
  let wasKingBefore := Checker.isKing (heap b checker) in
  match ramifications with
  | None => Ok (None, b)
  | Some m =>
      let from_col := Checker.col (heap b checker) in
      let from_row := Checker.row (heap b checker) in
      b1 ← moveTo b checker (Move.to_row m) (Move.to_col m);
      let made_king := negb wasKingBefore && Checker.isKing (heap b1 checker) in
      b2 ← forEach removeAtSquare (Move.remove m) b1;
      Ok (Some (Ramifications.mk (Move.to_col m) (Move.to_row m) (Move.remove m)
                                 from_col from_row made_king),
          b2)
  end.

(** ** board.js: the other reads and mutators *)


(** [for (var r in this.square) for (var c in this.square[r])] visits the
    rows in ascending order and, in a row, the columns that are array
    indices in ascending order.  A column that is no array index (a
    negative one, which only an [add] or a [moveTo] off the board can
    create) comes after them, in the order of creation, which the grid
    does not record: the enumeration below is the source's on every board
    whose cells are all squares of the board. *)
Definition cellBefore (x y : Z * Z * loc) : Prop :=
  x.1.1 < y.1.1 ∨ (x.1.1 = y.1.1 ∧ x.1.2 ≤ y.1.2).

#[global] Instance cellBefore_dec x y : Decision (cellBefore x y).
Proof. unfold cellBefore. apply _. Defined.

#[global] Instance cellBefore_total : Total cellBefore.
Proof. intros x y. unfold cellBefore. lia. Qed.

#[global] Instance cellBefore_trans : Transitive cellBefore.
Proof. intros x y z. unfold cellBefore. lia. Qed.

Definition cells (b : Board) : list (Z * Z * loc) :=
  sorting.merge_sort cellBefore (map_to_list (square b)).

(** Every stored value is a checker, hence truthy. *)
Definition getAllCheckers (b : Board) : list loc := snd <$> cells b.

(** The outcome of [removeAt].  On an empty cell the source evaluates
    [alert("no checker at " + r + "," + c)], in which [r] and [c] are not
    bound by [removeAt]: this raises a ReferenceError unless globals of
    these names exist.  Either way the board is not touched. *)
Inductive removal : Type :=
| Removed (b : Board)
| NoCheckerThere.

(** The keys [for-in] hands over are strings naming the indices; they are
    the numbers they name here. *)
Definition removeAt (b : Board) (row col : Z) : res removal :=
  o ← read_square b row col;
  match o with
  | None => Ok NoCheckerThere
  | Some checker =>
      let details := RemoveDetails checker (Some row) (Some col) in
      b1 ← delete_square b (Some (row, col));
      Ok (Removed (dispatchBoardEvent b1 "remove" details))
  end.

Fixpoint clearCells (cs : list (Z * Z * loc)) (b : Board) : res removal :=
  match cs with
  | [] => Ok (Removed b)
  | (r, c, _) :: cs' =>
      o ← read_square b r c;
      match o with
      | Some _ =>
          a ← removeAt b r c;
          match a with
          | Removed b' => clearCells cs' b'
          | NoCheckerThere => Ok NoCheckerThere
          end
      | None => clearCells cs' b
      end
  end.

Definition clear (b : Board) : res removal := clearCells (cells b) b.

(** [new Checker(color, false)]; [l] is the reference of the new object,
    which no cell, event or caller holds yet. *)
Definition newChecker (b : Board) (l : loc) (color : string) : Board :=
  with_heap b (<[l := Checker.new color false]> (heap b)).

(** [fresh i] are the references of the two checkers made in turn [i] of
    the loop.  [i % 2] is taken of a non-negative [i]. *)
Definition prepareNewGame (b : Board) (fresh : Z → loc * loc) : res removal :=
  a ← clear b;
  match a with
  | NoCheckerThere => Ok NoCheckerThere
  | Removed b0 =>
      b' ← forEach
        (λ bi i,
           let chkRed := (fresh i).1 in
           let bi1 := newChecker bi chkRed "red" in
           let chkBlack := (fresh i).2 in
           let bi2 := newChecker bi1 chkBlack "black" in
           bi3 ← add bi2 chkRed (1 - i `mod` 2) i;
           add bi3 chkBlack (boardSize bi3 - 1 - i `mod` 2) i)
        (seqZ 0 (boardSize b0)) b0;
      Ok (Removed b')
  end.

(** ** rules.js: random moves *)

(** [Math.floor(Math.random() * (top + 1))] is one of [0 .. top], since
    [Math.random()] is less than 1.  Which one is not the program's to
    say: the [k]-th number asked of the generator is taken from [random k]. *)
Definition drawBelow (random : nat → nat) (k : nat) (top : nat) : nat :=
  random k `mod` S top.

(** [tmp = array[current]; array[current] = array[top]; array[top] = tmp],
    for two indices of the array. *)
Definition swap {A : Type} (array : list A) (current top : nat) : list A :=
  match array !! current, array !! top with
  | Some tmp, Some atTop => <[top := tmp]> (<[current := atTop]> array)
  | _, _ => array
  end.

(** [while (--top) { ... }], entered with [top] already decremented. *)
Fixpoint shuffleDown {A : Type} (random : nat → nat) (k : nat) (top : nat) (array : list A)
    : list A * nat :=
  match top with
  | O => (array, k)
  | S top' =>
      let current := drawBelow random k top in
      shuffleDown random (S k) top' (swap array current top)
  end.

Definition shuffle {A : Type} (random : nat → nat) (k : nat) (array : list A) : list A * nat :=
  shuffleDown random k (length array - 1) array.



(** ** board.js: the random reads *)

(** [array[Math.floor(Math.random() * array.length)]]: an index below the
    length, and index 0, which holds nothing, of an empty array. *)
Definition pickRandom {A : Type} (random : nat → nat) (k : nat) (array : list A) : option A :=
  array !! drawBelow random k (length array - 1).

(** [if (allCheckers)] holds of every array, the empty one too. *)
Definition getRandomChecker (b : Board) (random : nat → nat) (k : nat) : option loc :=
  pickRandom random k (getAllCheckers b).

Definition getRandomNonKing (b : Board) (random : nat → nat) (k : nat) : option loc :=
  let allNonKings := filter (λ checker, Checker.isKing (heap b checker) = false)
                            (getAllCheckers b) in
  pickRandom random k allNonKings.

(** The rows read are those of the board, which the constructor made. *)
Definition getRandomEmptyLocation (b : Board) (random : nat → nat) (k : nat) : option (Z * Z) :=
  let availLocs :=
    r ← seqZ 0 (boardSize b);
    c ← seqZ 0 (boardSize b);
    match square b !! (r, c) with
    | None => [(r, c)]
    | Some _ => []
    end in
  pickRandom random k availLocs.

(** ** Sequences of calls on a board *)

Inductive Call : Type :=
| CallAdd (checker : loc) (row col : Z)
| CallMoveTo (checker : loc) (toRow toCol : Z)
| CallRemove (checker : loc).

Definition call (b : Board) (c : Call) : res Board :=
  match c with
  | CallAdd checker row col => add b checker row col
  | CallMoveTo checker toRow toCol => moveTo b checker toRow toCol
  | CallRemove checker => remove b checker
  end.

Definition calls (b : Board) (cs : list Call) : res Board := forEach call cs b.

(** A square of the board proper: both coordinates in [[0, boardSize)]. *)
Definition inBounds (b : Board) (row col : Z) : Prop :=
  0 ≤ row < boardSize b ∧ 0 ≤ col < boardSize b.

Definition onBoard (b : Board) (checker : loc) : Prop :=
  ∃ row col, square b !! (row, col) = Some checker.

Definition emptyTarget (b : Board) (row col : Z) : Prop :=
  inBounds b row col ∧ square b !! (row, col) = None.

(** The preconditions the methods document ("Requires ..."). *)
Definition required (b : Board) (c : Call) : Prop :=
  match c with
  | CallAdd checker row col => emptyTarget b row col ∧ ¬ onBoard b checker
  | CallMoveTo checker toRow toCol => emptyTarget b toRow toCol ∧ onBoard b checker
  | CallRemove checker => onBoard b checker
  end.

(** The same without [add]'s requirement on the checker. *)
Definition requiredTargetOnly (b : Board) (c : Call) : Prop :=
  match c with
  | CallAdd checker row col => emptyTarget b row col
  | CallMoveTo checker toRow toCol => emptyTarget b toRow toCol ∧ onBoard b checker
  | CallRemove checker => onBoard b checker
  end.

(** Each call of the sequence meets [P] in the board it is made on. *)
Fixpoint eachMeets (P : Board → Call → Prop) (b : Board) (cs : list Call) : Prop :=
  match cs with
  | [] => True
  | c :: cs' =>
      P b c ∧ match call b c with
              | Ok b' => eachMeets P b' cs'
              | _ => True
              end
  end.

(** Every cell of the finite map lies in one of the rows the constructor
    made.  This holds of any JavaScript grid: a cell of a missing row
    cannot be written. *)
Definition gridShape (b : Board) : Prop :=
  ∀ row col checker, square b !! (row, col) = Some checker → has_row b row = true.

(** The representation invariant [checkRep] tests. *)
Definition repInvariant (b : Board) : Prop :=
  ∀ row col checker,
    square b !! (row, col) = Some checker →
    Checker.row (heap b checker) = Some row ∧ Checker.col (heap b checker) = Some col.

Definition fails {A : Type} (r : res A) : Prop :=
  match r with
  | Ok _ => False
  | _ => True
  end.

(** ** What the reads answer, and what the mutators leave behind *)

(** What [getCheckerAt] answers, as a value. *)
Definition cellAt (b : Board) (row col : Z) : option loc :=
  if isValidLocation b row col then square b !! (row, col) else None.

Definition promoted (ch : Checker.t) : Checker.t :=
  Checker.mk (Checker.color ch) true (Checker.pos ch).

Definition placed (ch : Checker.t) (row col : Z) : Checker.t :=
  Checker.mk (Checker.color ch) (Checker.isKing ch) (Some (row, col)).

(** The dispatches of a [moveTo] that goes through, in order. *)
Definition moveDispatches (b : Board) (checker : loc) (toRow toCol : Z) : list Dispatch :=
  let ch := heap b checker in
  (if canBeKing b checker toRow toCol
   then [mkDispatch (mkBoardEvent "promote" (PromoteDetails checker)) (promoted ch)]
   else []) ++
  [mkDispatch
     (mkBoardEvent "move" (MoveDetails checker toRow toCol (Checker.row ch) (Checker.col ch)))
     (placed (if canBeKing b checker toRow toCol then promoted ch else ch) toRow toCol)].

Definition addDispatch (b : Board) (checker : loc) (row col : Z) : Dispatch :=
  mkDispatch (mkBoardEvent "add" (AddDetails checker row col))
             (placed (heap b checker) row col).

Definition promoteDispatch (checker : loc) (seen : Checker.t) : Dispatch :=
  mkDispatch (mkBoardEvent "promote" (PromoteDetails checker)) seen.

Definition moveDispatch (checker : loc) (toRow toCol : Z) (from : option (Z * Z))
    (seen : Checker.t) : Dispatch :=
  mkDispatch (mkBoardEvent "move" (MoveDetails checker toRow toCol (fst <$> from) (snd <$> from)))
             seen.

(** What [isValidJump] answers, as a value. *)
Definition validJump (b : Board) (checker : loc)
    (fromRow fromCol toRow toCol playerDirection : Z) : bool :=
  isValidLocation b toRow toCol &&
  match cellAt b toRow toCol with Some _ => false | None => true end &&
  negb (((toRow - fromRow) * playerDirection <? 0) && negb (Checker.isKing (heap b checker))) &&
  (Z.abs (toRow - fromRow) =? 2) && (Z.abs (toCol - fromCol) =? 2) &&
  match cellAt b ((toRow + fromRow) / 2) ((toCol + fromCol) / 2) with
  | Some other =>
      negb (String.eqb (Checker.color (heap b other)) (Checker.color (heap b checker)))
  | None => false
  end.

(** The entry a jump from [(curRow, curCol)] to [dest] adds to a chain. *)
Definition jumped (curRow curCol : Z) (dest : Z * Z) : Jump.t :=
  Jump.mk ((curCol + dest.2) / 2) ((curRow + dest.1) / 2) dest.2 dest.1.

(** The two tests a destination passes before the search recurses. *)
Definition takesJump (b : Board) (checker : loc) (playerDirection : Z)
    (jumpSeq : list Jump.t) (curRow curCol : Z) (dest : Z * Z) : Prop :=
  isValidJump b checker curRow curCol dest.1 dest.2 playerDirection = Ok true ∧
  alreadyJumpedPiece jumpSeq (Jump.killedRow (jumped curRow curCol dest))
                     (Jump.killedCol (jumped curRow curCol dest)) = false.

(** The occupied cells a chain has not captured yet. *)
Definition uncaptured (b : Board) (jumpSeq : list Jump.t) : nat :=
  size (dom (square b) ∖ list_to_set (Jump.killed <$> jumpSeq) : gset (Z * Z)).

(** Where a chain of the result of one run of the loop comes from. *)
Definition chainFrom (recur : list Jump.t → Z → Z → res (list (list Jump.t)))
    (b : Board) (checker : loc) (playerDirection : Z) (jumpSeq : list Jump.t)
    (curRow curCol : Z) (dests : list (Z * Z)) (chain : list Jump.t) : Prop :=
  ∃ dest, dest ∈ dests ∧
          takesJump b checker playerDirection jumpSeq curRow curCol dest ∧
          (chain = jumpSeq ++ [jumped curRow curCol dest] ∨
           ∃ future, recur (jumpSeq ++ [jumped curRow curCol dest]) dest.1 dest.2 = Ok future ∧
                     chain ∈ future).

(** The entry [collapseJumpSequence] makes for one jump. *)
Definition capture (b : Board) (j : Jump.t) : res Captured.t :=
  c ← getCheckerAt b (Jump.killedRow j) (Jump.killedCol j);
  c' ← getCheckerAt b (Jump.killedRow j) (Jump.killedCol j);
  match c, c' with
  | Some other, Some other' =>
      Ok (Captured.mk (Jump.killedRow j) (Jump.killedCol j)
                      (Checker.color (heap b other)) (Checker.isKing (heap b other')))
  | _, _ => TypeError
  end.

(** A jump and the entry recording its capture: the square, and the
    color and king flag of the checker standing on it in [b]. *)
Definition records (b : Board) (j : Jump.t) (e : Captured.t) : Prop :=
  ∃ dead,
    inBounds b (Jump.killedRow j) (Jump.killedCol j) ∧
    square b !! (Jump.killedRow j, Jump.killedCol j) = Some dead ∧
    e = Captured.mk (Jump.killedRow j) (Jump.killedCol j)
                    (Checker.color (heap b dead)) (Checker.isKing (heap b dead)).

(** A jump of the chosen chain and its entry in the result: the entry
    carries the square and the color and king flag of the checker [dead]
    that stood on it when [makeMove] was called; [dead] is not the moving
    checker, and none of its fields was written during the call. *)
Definition reports (b b' : Board) (checker : loc) (j : Jump.t) (e : Captured.t) : Prop :=
  ∃ dead,
    square b !! (Jump.killedRow j, Jump.killedCol j) = Some dead ∧
    dead ≠ checker ∧
    heap b' dead = heap b dead ∧
    e = Captured.mk (Jump.killedRow j) (Jump.killedCol j)
                    (Checker.color (heap b dead)) (Checker.isKing (heap b dead)).

(** ** What the other operations leave behind *)

(** What no call changes: the size of the board, the color of a checker,
    the crown of a king, and the events already dispatched. *)
Definition keeps (b b' : Board) : Prop :=
  boardSize b' = boardSize b ∧
  (∀ l, Checker.color (heap b' l) = Checker.color (heap b l)) ∧
  (∀ l, Checker.isKing (heap b l) = true → Checker.isKing (heap b' l) = true) ∧
  dispatched b `prefix_of` dispatched b'.

Definition removeDispatch (checker : loc) (seen : Checker.t) : Dispatch :=
  mkDispatch (mkBoardEvent "remove"
                (RemoveDetails checker (Checker.row seen) (Checker.col seen)))
             seen.

(** One jump of [checker] from [(fromRow, fromCol)], as the grid [b]
    allows it: it lands two rows and two columns away on an empty square
    of the board, over the square in between, which holds a checker of
    another color; a checker that is no king does not jump against its
    direction. *)
Definition legalJump (b : Board) (checker : loc) (playerDirection : Z)
    (fromRow fromCol : Z) (j : Jump.t) : Prop :=
  inBounds b (Jump.row j) (Jump.col j) ∧
  square b !! (Jump.row j, Jump.col j) = None ∧
  Z.abs (Jump.row j - fromRow) = 2 ∧
  Z.abs (Jump.col j - fromCol) = 2 ∧
  (Checker.isKing (heap b checker) = false → 0 ≤ (Jump.row j - fromRow) * playerDirection) ∧
  2 * Jump.killedRow j = fromRow + Jump.row j ∧
  2 * Jump.killedCol j = fromCol + Jump.col j ∧
  ∃ other,
    inBounds b (Jump.killedRow j) (Jump.killedCol j) ∧
    square b !! (Jump.killedRow j, Jump.killedCol j) = Some other ∧
    Checker.color (heap b other) ≠ Checker.color (heap b checker).

(** Jumps that follow one another, each from the landing of the one
    before. *)
Fixpoint jumpPath (b : Board) (checker : loc) (playerDirection : Z)
    (fromRow fromCol : Z) (js : list Jump.t) : Prop :=
  match js with
  | [] => True
  | j :: js' =>
      legalJump b checker playerDirection fromRow fromCol j ∧
      jumpPath b checker playerDirection (Jump.row j) (Jump.col j) js'
  end.

(** The candidate, if any, for a step onto [(toRow, toCol)]. *)
Definition stepTo (b : Board) (toRow toCol : Z) (allowed : bool) : list Move.t :=
  if isValidLocation b toRow toCol
     && match cellAt b toRow toCol with Some _ => false | None => true end
     && allowed
  then [Move.mk toCol toRow []]
  else [].

Definition stepsOf (b : Board) (row col playerDirection : Z) (king : bool) : list Move.t :=
  stepTo b (row + playerDirection) (col + -1) true ++
  stepTo b (row + playerDirection) (col + 1) true ++
  stepTo b (row - playerDirection) (col + -1) king ++
  stepTo b (row - playerDirection) (col + 1) king.

Definition capturedSquare (e : Captured.t) : Z * Z := (Captured.row e, Captured.col e).

(** The [remove] events of the captures [es], as dispatched from a board
    on which [b]'s checkers still stand on the captured squares. *)
Definition capturedDispatches (b : Board) (es : list Captured.t) : list Dispatch :=
  concat ((λ e, match square b !! capturedSquare e with
                | Some dead => [removeDispatch dead (heap b dead)]
                | None => []
                end) <$> es).

Definition standsOn (b : Board) (e : Captured.t) : Prop :=
  ∃ dead,
    inBounds b (Captured.row e) (Captured.col e) ∧
    square b !! capturedSquare e = Some dead ∧
    Checker.pos (heap b dead) = Some (capturedSquare e).

(** The board a legal move leaves: the mover on the destination, its
    first square and the captured squares empty, every other cell as it
    was. *)
Definition gridAfter (b : Board) (checker : loc) (from to : Z * Z) (m : Move.t)
    (cell : Z * Z) : option loc :=
  if bool_decide (cell = to) then Some checker
  else if bool_decide (cell = from ∨ cell ∈ capturedSquare <$> Move.remove m) then None
  else square b !! cell.

(** Every occupied cell is a square of the board: the boards on which
    the enumeration of [cells] is the source's. *)
Definition allOnBoard (b : Board) : Prop :=
  ∀ row col checker, square b !! (row, col) = Some checker → inBounds b row col.

(** The event [removeAt] dispatches for the cell [x], with the checker as
    a handler finds it in the heap [h]. *)
Definition clearDispatch (h : loc → Checker.t) (x : Z * Z * loc) : Dispatch :=
  mkDispatch (mkBoardEvent "remove" (RemoveDetails x.2 (Some x.1.1) (Some x.1.2))) (h x.2).


(** The standard setup in the columns below [upto]: in column [i] a red
    checker on row [1 - i % 2] and a black one on row
    [boardSize - 1 - i % 2]. *)
Definition standardSetup (boardSize : Z) (fresh : Z → loc * loc) (upto : Z)
    (cell : Z * Z) : option loc :=
  if bool_decide (0 ≤ cell.2 < upto) then
    if bool_decide (cell.1 = 1 - cell.2 `mod` 2) then Some (fresh cell.2).1
    else if bool_decide (cell.1 = boardSize - 1 - cell.2 `mod` 2) then Some (fresh cell.2).2
    else None
  else None.

Definition redAt (i : Z) : Checker.t := Checker.mk "red" false (Some (1 - i `mod` 2, i)).

Definition blackAt (boardSize i : Z) : Checker.t :=
  Checker.mk "black" false (Some (boardSize - 1 - i `mod` 2, i)).

(** The two add events of turn [i] of the loop. *)
Definition setupDispatches (boardSize : Z) (fresh : Z → loc * loc) (i : Z) : list Dispatch :=
  [mkDispatch (mkBoardEvent "add" (AddDetails (fresh i).1 (1 - i `mod` 2) i)) (redAt i);
   mkDispatch (mkBoardEvent "add" (AddDetails (fresh i).2 (boardSize - 1 - i `mod` 2) i))
              (blackAt boardSize i)].

(** The objects [new Checker] returns are different from each other. *)
Definition distinctRefs (n : Z) (fresh : Z → loc * loc) : Prop :=
  ∀ i j, 0 ≤ i < n → 0 ≤ j < n →
         (fresh i).1 ≠ (fresh j).2 ∧
         (i ≠ j → (fresh i).1 ≠ (fresh j).1 ∧ (fresh i).2 ≠ (fresh j).2).

(** The board after the turns below [k] of the loop of [prepareNewGame]
    run on the board [b0]. *)
Definition setUpTo (b0 : Board) (fresh : Z → loc * loc) (k : Z) (bi : Board) : Prop :=
  boardSize bi = boardSize b0 ∧
  (∀ cell, square bi !! cell = standardSetup (boardSize b0) fresh k cell) ∧
  Z.of_nat (size (square bi)) = 2 * k ∧
  (∀ i, 0 ≤ i < k →
        heap bi (fresh i).1 = redAt i ∧ heap bi (fresh i).2 = blackAt (boardSize b0) i) ∧
  dispatched bi =
    dispatched b0 ++ concat (setupDispatches (boardSize b0) fresh <$> seqZ 0 k).

(** One turn of the loop of [prepareNewGame]. *)
Definition newGameTurn (fresh : Z → loc * loc) (bi : Board) (i : Z) : res Board :=
  let chkRed := (fresh i).1 in
  let bi1 := newChecker bi chkRed "red" in
  let chkBlack := (fresh i).2 in
  let bi2 := newChecker bi1 chkBlack "black" in
  bi3 ← add bi2 chkRed (1 - i `mod` 2) i;
  add bi3 chkBlack (boardSize bi3 - 1 - i `mod` 2) i.

(** ** Boards used as examples *)

Definition noCheckers : loc → Checker.t := λ _, Checker.new "red" false.

Definition twoCheckers : loc → Checker.t :=
  λ l, if decide (l = 1%nat) then Checker.new "red" false else Checker.new "black" false.

(** An 8 by 8 board on which checker 0, red, stands on (0, 0). *)
Definition redInCorner : Board :=
  mkBoard 8 {[ (0, 0) := 0%nat ]}
          (<[0%nat := Checker.mk "red" false (Some (0, 0))]> noCheckers)
          [addDispatch (newBoard 8 noCheckers) 0%nat 0 0].

(** An 8 by 8 board on which checker 1, a red king, stands on (6, 1). *)
Definition redKingNearFarRow : Board :=
  mkBoard 8 {[ (6, 1) := 1%nat ]}
          (<[1%nat := Checker.mk "red" true (Some (6, 1))]> twoCheckers)
          [].

(** An 8 by 8 board on which checker 1, red and no king, stands on (6, 1). *)
Definition redNearFarRow : Board :=
  mkBoard 8 {[ (6, 1) := 1%nat ]}
          (<[1%nat := Checker.mk "red" false (Some (6, 1))]> twoCheckers)
          [].

(** An 8 by 8 board on which checker 1, red, stands on (1, 1) and can jump
    the black checker 2 on (2, 2), then the black checker 3 on (4, 4). *)
Definition threeCheckers : loc → Checker.t :=
  λ l, match l with
       | 1%nat => Checker.mk "red" false (Some (1, 1))
       | 2%nat => Checker.mk "black" false (Some (2, 2))
       | _ => Checker.mk "black" false (Some (4, 4))
       end.

Definition doubleJump : Board :=
  mkBoard 8 (<[(1, 1) := 1%nat]> (<[(2, 2) := 2%nat]> {[ (4, 4) := 3%nat ]}))
          threeCheckers [].

Definition firstJump : Jump.t := Jump.mk 2 2 3 3.
Definition secondJump : Jump.t := Jump.mk 4 4 5 5.

(** The scenario of an 8 by 8 board with checker 1, red, on (2, 3) and
    checker 2, black, on (3, 4), red moving towards increasing rows. *)
Definition facingCheckers : Board :=
  mkBoard 8 (<[(2, 3) := 1%nat]> {[ (3, 4) := 2%nat ]})
          (<[1%nat := Checker.mk "red" false (Some (2, 3))]>
             (<[2%nat := Checker.mk "black" false (Some (3, 4))]> twoCheckers))
          [].

Definition afterDoubleJump : Board :=
  match makeMove doubleJump 1%nat 1 1 5 5 with
  | Ok (_, b') => b'
  | _ => doubleJump
  end.

Definition doubleJumpResult : Ramifications.t :=
  Ramifications.mk 5 5
    [Captured.mk 2 2 "black" false; Captured.mk 4 4 "black" false]
    (Some 1) (Some 1) false.

(** ** Board: reading *)

Lemma isValidLocation_true b row col :
  isValidLocation b row col = true ↔ inBounds b row col.
Proof.
  unfold isValidLocation, inBounds.
  destruct (row <? 0) eqn:E1, (col <? 0) eqn:E2,
           (row >=? boardSize b) eqn:E3, (col >=? boardSize b) eqn:E4;
    simpl; split; intros H; try discriminate; try reflexivity; lia.
Qed.

Lemma isValidLocation_false b row col :
  isValidLocation b row col = false ↔ ¬ inBounds b row col.
Proof.
  rewrite <- isValidLocation_true. destruct (isValidLocation b row col); split; congruence.
Qed.

Lemma inBounds_has_row b row col : inBounds b row col → has_row b row = true.
Proof. unfold inBounds, has_row. intros. apply andb_true_iff. lia. Qed.

Lemma getCheckerAt_cellAt b row col : getCheckerAt b row col = Ok (cellAt b row col).
Proof.
  unfold getCheckerAt, cellAt, read_square.
  destruct (isValidLocation b row col) eqn:E; [|reflexivity].
  apply isValidLocation_true, inBounds_has_row in E. by rewrite E.
Qed.

Lemma isEmptyLocation_cellAt b row col :
  isEmptyLocation b row col = Ok (match cellAt b row col with Some _ => false | None => true end).
Proof.
  unfold isEmptyLocation. rewrite getCheckerAt_cellAt. simpl.
  by destruct (cellAt b row col).
Qed.

Lemma cellAt_inBounds b row col :
  inBounds b row col → cellAt b row col = square b !! (row, col).
Proof. intros H. unfold cellAt. apply isValidLocation_true in H. by rewrite H. Qed.

Lemma cellAt_outside b row col : ¬ inBounds b row col → cellAt b row col = None.
Proof. intros H. unfold cellAt. apply isValidLocation_false in H. by rewrite H. Qed.

Lemma cellAt_Some b row col l :
  cellAt b row col = Some l → inBounds b row col ∧ square b !! (row, col) = Some l.
Proof.
  unfold cellAt. destruct (isValidLocation b row col) eqn:E; [|discriminate].
  apply isValidLocation_true in E. auto.
Qed.

Lemma repInvariant_pos b row col checker :
  repInvariant b → square b !! (row, col) = Some checker →
  Checker.pos (heap b checker) = Some (row, col).
Proof.
  intros Hinv Hsq. destruct (Hinv _ _ _ Hsq) as [Hr Hc].
  unfold Checker.row, Checker.col in *.
  destruct (Checker.pos (heap b checker)) as [[r c]|]; simpl in *; congruence.
Qed.

Lemma checkRep_repInvariant b : checkRep b = true ↔ repInvariant b.
Proof.
  unfold checkRep, repInvariant. rewrite bool_decide_eq_true. split.
  - intros H row col checker Hsq. specialize (H _ _ Hsq). simpl in H.
    unfold Checker.row, Checker.col. by rewrite H.
  - intros H [row col] checker Hsq. simpl. eapply repInvariant_pos; eauto.
Qed.

(** ** Board: what a mutator that goes through leaves behind *)

Lemma add_through b checker row col :
  isEmptyLocation b row col = Ok true → has_row b row = true →
  add b checker row col =
    Ok (mkBoard (boardSize b)
                (<[(row, col) := checker]> (square b))
                (<[checker := placed (heap b checker) row col]> (heap b))
                (dispatched b ++
                   [mkDispatch (mkBoardEvent "add" (AddDetails checker row col))
                               (placed (heap b checker) row col)])).
Proof.
  intros He Hrow. unfold add. rewrite He. simpl.
  unfold write_square, set_pos, with_heap, has_row in *. simpl. rewrite Hrow. simpl.
  unfold dispatchBoardEvent, with_square. simpl.
  by rewrite fn_lookup_insert.
Qed.

Lemma add_blocked b checker row col :
  isEmptyLocation b row col = Ok false → add b checker row col = Ok b.
Proof. intros He. unfold add. by rewrite He. Qed.

Lemma remove_through b checker row col :
  Checker.pos (heap b checker) = Some (row, col) → has_row b row = true →
  remove b checker =
    Ok (mkBoard (boardSize b) (delete (row, col) (square b)) (heap b)
                (dispatched b ++
                   [mkDispatch (mkBoardEvent "remove" (RemoveDetails checker (Some row) (Some col)))
                               (heap b checker)])).
Proof.
  intros Hpos Hrow. unfold remove, delete_square. rewrite Hpos, Hrow. simpl.
  unfold dispatchBoardEvent, with_square, Checker.row, Checker.col. simpl.
  by rewrite Hpos.
Qed.

Lemma moveTo_through b checker toRow toCol row col :
  isEmptyLocation b toRow toCol = Ok true → has_row b toRow = true →
  Checker.pos (heap b checker) = Some (row, col) → has_row b row = true →
  ∃ b', moveTo b checker toRow toCol = Ok b' ∧
        boardSize b' = boardSize b ∧
        square b' = <[(toRow, toCol) := checker]> (delete (row, col) (square b)) ∧
        heap b' checker = placed (if canBeKing b checker toRow toCol
                                  then promoted (heap b checker)
                                  else heap b checker) toRow toCol ∧
        (∀ l, l ≠ checker → heap b' l = heap b l) ∧
        dispatched b' = dispatched b ++ moveDispatches b checker toRow toCol.
Proof.
  intros He Hto Hpos Hrow. unfold moveTo. rewrite He. simpl.
  unfold delete_square. rewrite Hpos, Hrow. simpl.
  unfold write_square, has_row in *. simpl. rewrite Hto. simpl.
  eexists. split; [reflexivity|].
  unfold moveDispatches, canBeKing, with_square. simpl.
  destruct (String.eqb (Checker.color (heap b checker)) "red");
    [destruct (toRow =? boardSize b - 1) | destruct (toRow =? 0)];
    unfold set_pos, promote, dispatchBoardEvent, with_heap, placed, promoted; simpl;
    rewrite ?fn_lookup_insert; simpl; rewrite <- ?app_assoc; simpl;
    (repeat split; [intros l Hl; by rewrite ?fn_lookup_insert_ne by done]).
Qed.

(** ** Board: the representation invariant along a sequence of calls *)

Lemma emptyTarget_isEmptyLocation b row col :
  emptyTarget b row col → isEmptyLocation b row col = Ok true ∧ has_row b row = true.
Proof.
  intros [Hin Hsq]. split; [|by eapply inBounds_has_row].
  by rewrite isEmptyLocation_cellAt, cellAt_inBounds, Hsq.
Qed.

Lemma onBoard_pos b checker :
  gridShape b → repInvariant b → onBoard b checker →
  ∃ row col, square b !! (row, col) = Some checker ∧
             Checker.pos (heap b checker) = Some (row, col) ∧ has_row b row = true.
Proof.
  intros Hshape Hinv (row & col & Hsq). exists row, col.
  split; [done|]. split; [by eapply repInvariant_pos | by eapply Hshape].
Qed.

Lemma placed_row ch row col : Checker.row (placed ch row col) = Some row.
Proof. reflexivity. Qed.

Lemma placed_col ch row col : Checker.col (placed ch row col) = Some col.
Proof. reflexivity. Qed.

Lemma call_keeps_invariant b c :
  gridShape b → repInvariant b → required b c →
  ∃ b', call b c = Ok b' ∧ gridShape b' ∧ repInvariant b'.
Proof.
  intros Hshape Hinv Hreq. destruct c as [checker row col|checker toRow toCol|checker]; simpl in *.
  - destruct Hreq as [Htarget Hoff].
    destruct (emptyTarget_isEmptyLocation _ _ _ Htarget) as [He Hrow].
    rewrite (add_through _ _ _ _ He Hrow). eexists. split; [reflexivity|]. split.
    + intros r c l. simpl. unfold has_row. simpl.
      destruct (decide ((row, col) = (r, c))) as [[= <- <-]|Hne].
      * intros _. exact Hrow.
      * rewrite lookup_insert_ne by done. apply Hshape.
    + intros r c l. simpl.
      destruct (decide ((row, col) = (r, c))) as [[= <- <-]|Hne].
      * rewrite lookup_insert_eq. intros [= <-]. by rewrite fn_lookup_insert.
      * rewrite lookup_insert_ne by done. intros Hsq.
        rewrite fn_lookup_insert_ne; [by apply Hinv|].
        intros <-. apply Hoff. by exists r, c.
  - destruct Hreq as [Htarget Hon].
    destruct (emptyTarget_isEmptyLocation _ _ _ Htarget) as [He Hto].
    destruct (onBoard_pos _ _ Hshape Hinv Hon) as (row & col & Hsq & Hpos & Hrow).
    destruct (moveTo_through _ _ _ _ _ _ He Hto Hpos Hrow)
      as (b' & Hrun & Hsize & Hsquare & Hmoved & Hothers & _).
    exists b'. split; [done|]. split.
    + intros r c l. unfold has_row. rewrite Hsquare, Hsize.
      destruct (decide ((toRow, toCol) = (r, c))) as [[= <- <-]|Hne].
      * intros _. exact Hto.
      * rewrite lookup_insert_ne by done.
        destruct (decide ((row, col) = (r, c))) as [[= <- <-]|Hne'].
        -- by rewrite lookup_delete_eq.
        -- rewrite lookup_delete_ne by done. apply Hshape.
    + intros r c l. rewrite Hsquare.
      destruct (decide ((toRow, toCol) = (r, c))) as [[= <- <-]|Hne].
      * rewrite lookup_insert_eq. intros [= <-]. by rewrite Hmoved.
      * rewrite lookup_insert_ne by done.
        destruct (decide ((row, col) = (r, c))) as [[= <- <-]|Hne'].
        -- by rewrite lookup_delete_eq.
        -- rewrite lookup_delete_ne by done. intros Hsq'.
           rewrite Hothers; [by apply Hinv|].
           intros ->. apply Hne'.
           pose proof (repInvariant_pos _ _ _ _ Hinv Hsq') as Hpos'. congruence.
  - destruct (onBoard_pos _ _ Hshape Hinv Hreq) as (row & col & Hsq & Hpos & Hrow).
    rewrite (remove_through _ _ _ _ Hpos Hrow). eexists. split; [reflexivity|]. split.
    + intros r c l. simpl. unfold has_row. simpl.
      destruct (decide ((row, col) = (r, c))) as [[= <- <-]|Hne].
      * by rewrite lookup_delete_eq.
      * rewrite lookup_delete_ne by done. apply Hshape.
    + intros r c l. simpl.
      destruct (decide ((row, col) = (r, c))) as [[= <- <-]|Hne].
      * by rewrite lookup_delete_eq.
      * rewrite lookup_delete_ne by done. apply Hinv.
Qed.

(** A board fresh from the constructor, whatever checkers exist. *)
Lemma newBoard_gridShape size h : gridShape (newBoard size h).
Proof. intros row col checker. simpl. by rewrite lookup_empty. Qed.

Lemma newBoard_repInvariant size h : repInvariant (newBoard size h).
Proof. intros row col checker. simpl. by rewrite lookup_empty. Qed.

(** C1, as amended: on a board whose occupied cells agree with their
    checkers, after any sequence of [add], [moveTo] and [remove] calls each
    of which meets the precondition its method documents (target square
    empty and in bounds for [add] and [moveTo]; checker not on the board for
    [add]; checker on the board for [moveTo] and [remove]), no call throws,
    [checkRep] finds nothing to report and every occupied cell (r, c) holds
    a checker whose [row] is r and whose [col] is c. *)
Theorem calls_keep_repInvariant b cs :
  gridShape b → repInvariant b → eachMeets required b cs →
  ∃ b', calls b cs = Ok b' ∧
        checkRep b' = true ∧
        ∀ row col checker,
          square b' !! (row, col) = Some checker →
          Checker.row (heap b' checker) = Some row ∧
          Checker.col (heap b' checker) = Some col.
Proof.
  revert b. induction cs as [|c cs IH]; intros b Hshape Hinv Hmeets.
  - exists b. split; [reflexivity|]. split; [by apply checkRep_repInvariant | exact Hinv].
  - destruct Hmeets as [Hreq Hrest].
    destruct (call_keeps_invariant b c Hshape Hinv Hreq) as (b1 & Hcall & Hshape1 & Hinv1).
    rewrite Hcall in Hrest.
    destruct (IH b1 Hshape1 Hinv1 Hrest) as (b' & Hcalls & Hfinal).
    exists b'. split; [|exact Hfinal].
    unfold calls in *. simpl. by rewrite Hcall.
Qed.

Lemma calls_keep_repInvariant_witness :
  ∃ b', calls (newBoard 8 twoCheckers)
              [CallAdd 1%nat 2 3; CallAdd 2%nat 3 4; CallMoveTo 1%nat 4 5; CallRemove 2%nat]
        = Ok b' ∧
        checkRep b' = true ∧
        ∀ row col checker,
          square b' !! (row, col) = Some checker →
          Checker.row (heap b' checker) = Some row ∧
          Checker.col (heap b' checker) = Some col.
Proof.
  apply calls_keep_repInvariant.
  - apply newBoard_gridShape.
  - apply newBoard_repInvariant.
  - cbn. repeat split; try lia.
    + intros (r & c & H). vm_compute in H. discriminate.
    + intros (r & c & H). revert H. cbn.
      destruct (decide ((2, 3) = (r, c))) as [[= <- <-]|Hne].
      * rewrite lookup_insert_eq. discriminate.
      * rewrite lookup_insert_ne by done. by rewrite lookup_empty.
    + by exists 2, 3.
    + by exists 3, 4.
Defined.

(** C1, as stated: with only the target square required of [add], adding
    a checker that is already on the board leaves its old cell pointing at
    a checker that records the new position. *)
Lemma readded_checker_breaks_repInvariant :
  ¬ (∀ b cs b',
       gridShape b → repInvariant b → eachMeets requiredTargetOnly b cs →
       calls b cs = Ok b' →
       ∀ row col checker,
         square b' !! (row, col) = Some checker →
         Checker.row (heap b' checker) = Some row ∧
         Checker.col (heap b' checker) = Some col).
Proof.
  intros H.
  assert (Hrun : ∃ b', calls (newBoard 8 noCheckers) [CallAdd 0%nat 0 0; CallAdd 0%nat 1 1] = Ok b'
                       ∧ square b' !! (0, 0) = Some 0%nat
                       ∧ Checker.row (heap b' 0%nat) = Some 1).
  { eexists. split; [vm_compute; reflexivity|]. split; reflexivity. }
  destruct Hrun as (b' & Hcalls & Hsq & Hrow).
  assert (Hmeets : eachMeets requiredTargetOnly (newBoard 8 noCheckers)
                              [CallAdd 0%nat 0 0; CallAdd 0%nat 1 1]).
  { cbn. repeat split; lia. }
  destruct (H _ _ b' (newBoard_gridShape _ _) (newBoard_repInvariant _ _) Hmeets Hcalls
              _ _ _ Hsq) as [Hr _].
  rewrite Hrow in Hr. discriminate.
Qed.

(** ** Board: out-of-bounds reads *)

(** C8, as amended: [getCheckerAt] never throws.  For coordinates outside
    [[0, boardSize)] it returns [undefined], the value it also returns for
    an empty cell inside, and [isEmptyLocation] answers the ordinary
    boolean [true] in both cases. *)
Theorem getCheckerAt_outside_or_empty b row col :
  ¬ inBounds b row col ∨ square b !! (row, col) = None →
  getCheckerAt b row col = Ok None ∧ isEmptyLocation b row col = Ok true.
Proof.
  intros H. rewrite isEmptyLocation_cellAt, getCheckerAt_cellAt.
  assert (Hcell : cellAt b row col = None).
  { destruct H as [Hout|Hnone]; [by apply cellAt_outside|].
    unfold cellAt. by destruct (isValidLocation b row col). }
  by rewrite Hcell.
Qed.

Lemma getCheckerAt_outside_or_empty_witness :
  getCheckerAt (newBoard 8 noCheckers) (-1) 0 = Ok None ∧
  isEmptyLocation (newBoard 8 noCheckers) (-1) 0 = Ok true.
Proof.
  apply getCheckerAt_outside_or_empty. left. unfold inBounds. simpl. lia.
Defined.

(** C8, as stated: a read outside the board is no error.  Neither
    function fails on row -1 or on column 8 of an 8 by 8 board. *)
Lemma out_of_bounds_read_returns :
  ¬ fails (getCheckerAt (newBoard 8 noCheckers) (-1) 0) ∧
  ¬ fails (isEmptyLocation (newBoard 8 noCheckers) 0 8) ∧
  getCheckerAt (newBoard 8 noCheckers) (-1) 0 = Ok None ∧
  isEmptyLocation (newBoard 8 noCheckers) 0 8 = Ok true.
Proof. vm_compute. tauto. Qed.

(** ** Board: [add] *)

(** C7, as amended: [add] is a no-op that dispatches no event when the
    target cell is occupied.  A checker that is already on another cell is
    not detected: [add] onto an empty target stores it there as well,
    rewrites its position and dispatches an [add] event, and the old cell
    keeps pointing at it. *)
Theorem add_rejects_occupied_target_only b checker row col :
  (inBounds b row col → is_Some (square b !! (row, col)) →
   add b checker row col = Ok b) ∧
  (emptyTarget b row col →
   ∀ row0 col0, square b !! (row0, col0) = Some checker →
     ∃ b', add b checker row col = Ok b' ∧
           square b' !! (row, col) = Some checker ∧
           square b' !! (row0, col0) = Some checker ∧
           Checker.pos (heap b' checker) = Some (row, col) ∧
           dispatched b' = dispatched b ++ [addDispatch b checker row col]).
Proof.
  split.
  - intros Hin [other Hsq]. apply add_blocked.
    by rewrite isEmptyLocation_cellAt, cellAt_inBounds, Hsq.
  - intros Htarget row0 col0 Hold.
    destruct (emptyTarget_isEmptyLocation _ _ _ Htarget) as [He Hrow].
    rewrite (add_through _ _ _ _ He Hrow). eexists. split; [reflexivity|]. simpl.
    split; [apply lookup_insert_eq|]. split.
    + rewrite lookup_insert_ne; [done|]. intros [= <- <-].
      destruct Htarget as [_ Hnone]. congruence.
    + by rewrite fn_lookup_insert.
Qed.

Lemma redInCorner_reached : add (newBoard 8 noCheckers) 0%nat 0 0 = Ok redInCorner.
Proof. reflexivity. Qed.

Lemma add_rejects_occupied_target_only_witness :
  add redInCorner 1%nat 0 0 = Ok redInCorner ∧
  ∃ b', add redInCorner 0%nat 1 1 = Ok b' ∧
        square b' !! (1, 1) = Some 0%nat ∧
        square b' !! (0, 0) = Some 0%nat ∧
        Checker.pos (heap b' 0%nat) = Some (1, 1) ∧
        dispatched b' = dispatched redInCorner ++ [addDispatch redInCorner 0%nat 1 1].
Proof.
  split.
  - apply (add_rejects_occupied_target_only redInCorner 1%nat 0 0).
    + unfold inBounds. simpl. lia.
    + by exists 0%nat.
  - apply (add_rejects_occupied_target_only redInCorner 0%nat 1 1).
    + split; [unfold inBounds; simpl; lia | reflexivity].
    + reflexivity.
Defined.

(** C7, as stated: re-adding a checker that is already placed is not
    rejected.  With checker 0 on (0, 0), [add] of the same checker onto
    (1, 1) changes the board and dispatches an event. *)
Lemma readded_checker_not_rejected :
  ¬ (∀ b checker row col,
       gridShape b → repInvariant b →
       is_Some (square b !! (row, col)) ∨ onBoard b checker →
       add b checker row col = Ok b).
Proof.
  intros H.
  assert (Hshape : gridShape redInCorner ∧ repInvariant redInCorner).
  { destruct (call_keeps_invariant (newBoard 8 noCheckers) (CallAdd 0%nat 0 0))
      as (b1 & Hcall & Hs & Hi).
    - apply newBoard_gridShape.
    - apply newBoard_repInvariant.
    - split; [split; [unfold inBounds; simpl; lia | reflexivity]|].
      intros (r & c & Hsq). simpl in Hsq. by rewrite lookup_empty in Hsq.
    - simpl in Hcall. rewrite redInCorner_reached in Hcall.
      injection Hcall as <-. by split. }
  destruct Hshape as [Hs Hi].
  specialize (H redInCorner 0%nat 1 1 Hs Hi).
  assert (Hon : onBoard redInCorner 0%nat) by (by exists 0, 0).
  specialize (H (or_intror Hon)).
  apply (f_equal (λ r, match r with Ok b' => length (dispatched b') | _ => 0%nat end)) in H.
  vm_compute in H. discriminate.
Qed.

(** ** Board: [moveTo] and promotion *)

Lemma canBeKing_far_row b checker toRow toCol :
  (Checker.color (heap b checker) = "red" ∧ toRow = boardSize b - 1) ∨
  (Checker.color (heap b checker) = "black" ∧ toRow = 0) →
  canBeKing b checker toRow toCol = true.
Proof.
  unfold canBeKing. intros [[-> ->]|[-> ->]]; simpl; [apply Z.eqb_refl | reflexivity].
Qed.

(** C10: a [moveTo] onto the far row of the checker's color (last row for
    red, row 0 for black) runs the promotion and dispatches a [promote]
    event whatever the checker's [isKing] was before the call, already
    [true] included; afterwards the checker is a king. *)
Theorem moveTo_far_row_promotes_whatever_isKing b checker toRow toCol row col :
  (Checker.color (heap b checker) = "red" ∧ toRow = boardSize b - 1) ∨
  (Checker.color (heap b checker) = "black" ∧ toRow = 0) →
  emptyTarget b toRow toCol →
  Checker.pos (heap b checker) = Some (row, col) → has_row b row = true →
  ∃ b', moveTo b checker toRow toCol = Ok b' ∧
        dispatched b' =
          dispatched b ++
            [promoteDispatch checker (promoted (heap b checker));
             moveDispatch checker toRow toCol (Some (row, col))
                          (placed (promoted (heap b checker)) toRow toCol)] ∧
        Checker.isKing (heap b' checker) = true.
Proof.
  intros Hfar Htarget Hpos Hrow.
  destruct (emptyTarget_isEmptyLocation _ _ _ Htarget) as [He Hto].
  destruct (moveTo_through _ _ _ _ _ _ He Hto Hpos Hrow)
    as (b' & Hrun & _ & _ & Hmoved & _ & Hlog).
  exists b'. split; [done|].
  apply canBeKing_far_row with (toCol := toCol) in Hfar.
  unfold moveDispatches in Hlog. rewrite Hfar in Hlog, Hmoved.
  split; [|by rewrite Hmoved].
  rewrite Hlog. unfold promoteDispatch, moveDispatch, Checker.row, Checker.col.
  by rewrite Hpos.
Qed.

Lemma moveTo_far_row_promotes_whatever_isKing_witness :
  Checker.isKing (heap redKingNearFarRow 1%nat) = true ∧
  ∃ b', moveTo redKingNearFarRow 1%nat 7 2 = Ok b' ∧
        dispatched b' =
          dispatched redKingNearFarRow ++
            [promoteDispatch 1%nat (promoted (heap redKingNearFarRow 1%nat));
             moveDispatch 1%nat 7 2 (Some (6, 1))
                          (placed (promoted (heap redKingNearFarRow 1%nat)) 7 2)] ∧
        Checker.isKing (heap b' 1%nat) = true.
Proof.
  split; [reflexivity|].
  apply (moveTo_far_row_promotes_whatever_isKing redKingNearFarRow 1%nat 7 2 6 1).
  - left. split; reflexivity.
  - split; [unfold inBounds; simpl; lia | reflexivity].
  - reflexivity.
  - reflexivity.
Defined.

(** C9, on the code: the promoting [moveTo] of a red checker from (6, 1)
    to (7, 2) dispatches [promote] first and [move] second, and the
    handlers of [promote] read the checker while it still records (6, 1). *)
Theorem moveTo_dispatches_promote_before_position_update :
  ∃ b', moveTo redNearFarRow 1%nat 7 2 = Ok b' ∧
        dispatched b' =
          [promoteDispatch 1%nat (Checker.mk "red" true (Some (6, 1)));
           moveDispatch 1%nat 7 2 (Some (6, 1)) (Checker.mk "red" true (Some (7, 2)))] ∧
        Checker.pos (heap b' 1%nat) = Some (7, 2).
Proof. eexists. split; [vm_compute; reflexivity|]. split; reflexivity. Qed.

(** ** Rules: loops *)

Lemma forEach_ext {A B} (body body' : B → A → res B) l acc :
  (∀ acc' x, body acc' x = body' acc' x) →
  forEach body l acc = forEach body' l acc.
Proof.
  intros Hbody. revert acc. induction l as [|x l IH]; intros acc; simpl; [reflexivity|].
  rewrite Hbody. destruct (body' acc x); simpl; auto.
Qed.

(** A loop goes through when each turn of it does. *)
Lemma forEach_through {A B} (body : B → A → res B) l acc :
  (∀ acc' x, x ∈ l → ∃ acc'', body acc' x = Ok acc'') →
  ∃ r, forEach body l acc = Ok r.
Proof.
  revert acc. induction l as [|x l IH]; intros acc Hbody; simpl; [by eexists|].
  destruct (Hbody acc x) as [acc' ->]; [left|]. simpl.
  apply IH. intros acc'' y Hy. apply Hbody. by right.
Qed.

(** A loop whose body is replaced by one that returns at least as often
    returns the same. *)
Lemma forEach_mono {A B} (body body' : B → A → res B) l acc r :
  (∀ acc' x v, x ∈ l → body acc' x = Ok v → body' acc' x = Ok v) →
  forEach body l acc = Ok r → forEach body' l acc = Ok r.
Proof.
  revert acc. induction l as [|x l IH]; intros acc Hbody; simpl; [done|].
  destruct (body acc x) as [acc'| |] eqn:E; simpl; try discriminate.
  rewrite (Hbody acc x acc'); [|left|done]. simpl.
  apply IH. intros acc'' y v Hy. apply Hbody. by right.
Qed.

(** An invariant of the accumulator is carried through a loop. *)
Lemma forEach_invariant {A B} (P : B → Prop) (body : B → A → res B) l acc r :
  (∀ acc' x acc'', x ∈ l → P acc' → body acc' x = Ok acc'' → P acc'') →
  P acc → forEach body l acc = Ok r → P r.
Proof.
  revert acc. induction l as [|x l IH]; intros acc Hbody Hacc; simpl.
  - by intros [= <-].
  - destruct (body acc x) as [acc'| |] eqn:E; simpl; try discriminate.
    apply IH.
    + intros acc'' y acc''' Hy. apply Hbody. by right.
    + eapply Hbody; [left|exact Hacc|exact E].
Qed.

Lemma foldl_push {A} (l acc : list A) : foldl (λ r x, r ++ [x]) acc l = acc ++ l.
Proof.
  revert acc. induction l as [|x l IH]; intros acc; simpl.
  - by rewrite app_nil_r.
  - rewrite IH, <- app_assoc. reflexivity.
Qed.

Lemma copyJumpSequence_id jumpSeq : copyJumpSequence jumpSeq = jumpSeq.
Proof. unfold copyJumpSequence. apply foldl_push. Qed.

Lemma alreadyJumpedPiece_elem jumpSeq row col :
  alreadyJumpedPiece jumpSeq row col = true ↔ (row, col) ∈ Jump.killed <$> jumpSeq.
Proof.
  unfold alreadyJumpedPiece.
  assert (Hgen : ∀ acc,
            foldl (λ alreadyJumped j,
                     if (col =? Jump.killedCol j) && (row =? Jump.killedRow j) then true
                     else alreadyJumped) acc jumpSeq = true
            ↔ acc = true ∨ (row, col) ∈ Jump.killed <$> jumpSeq).
  { induction jumpSeq as [|j js IH]; intros acc; simpl.
    - rewrite elem_of_nil. tauto.
    - rewrite IH, elem_of_cons. unfold Jump.killed at 1.
      destruct ((col =? Jump.killedCol j) && (row =? Jump.killedRow j)) eqn:E.
      + apply andb_true_iff in E as [Hc Hr]. apply Z.eqb_eq in Hc, Hr. subst.
        tauto.
      + apply andb_false_iff in E. split; [tauto|].
        intros [H|[[= -> ->]|H]]; [tauto| |tauto].
        rewrite !Z.eqb_refl in E. destruct E; discriminate. }
  rewrite Hgen. split; [intros [H|H]; [discriminate|done] | auto].
Qed.

Lemma alreadyJumpedPiece_not_elem jumpSeq row col :
  alreadyJumpedPiece jumpSeq row col = false ↔ (row, col) ∉ Jump.killed <$> jumpSeq.
Proof.
  rewrite <- alreadyJumpedPiece_elem. destruct (alreadyJumpedPiece jumpSeq row col); split; congruence.
Qed.

(** ** Rules: a single jump *)

Lemma isValidJump_validJump b checker fromRow fromCol toRow toCol playerDirection :
  isValidJump b checker fromRow fromCol toRow toCol playerDirection =
  Ok (validJump b checker fromRow fromCol toRow toCol playerDirection).
Proof.
  unfold isValidJump, validJump.
  destruct (isValidLocation b toRow toCol); simpl; [|reflexivity].
  rewrite !isEmptyLocation_cellAt, getCheckerAt_cellAt. simpl.
  destruct (cellAt b toRow toCol); simpl; [reflexivity|].
  destruct (((toRow - fromRow) * playerDirection <? 0) && negb (Checker.isKing (heap b checker)));
    simpl; [reflexivity|].
  destruct (Z.abs (toRow - fromRow) =? 2); simpl; [|reflexivity].
  destruct (Z.abs (toCol - fromCol) =? 2); simpl; [|reflexivity].
  destruct (cellAt b ((toRow + fromRow) / 2) ((toCol + fromCol) / 2)); simpl; [|reflexivity].
  by destruct (String.eqb _ _).
Qed.

Lemma jumpTo_takes recur b checker playerDirection jumpSeq curRow curCol retSeqs dest :
  takesJump b checker playerDirection jumpSeq curRow curCol dest →
  jumpTo recur b checker playerDirection jumpSeq curRow curCol retSeqs dest =
    (futureJumps ← recur (jumpSeq ++ [jumped curRow curCol dest]) dest.1 dest.2;
     Ok (retSeqs ++ futureJumps ++ [jumpSeq ++ [jumped curRow curCol dest]])).
Proof.
  intros [Hvalid Hfresh]. unfold jumpTo. rewrite Hvalid. simpl.
  unfold jumped in Hfresh. simpl in Hfresh. rewrite Hfresh. simpl.
  rewrite copyJumpSequence_id. unfold jumped.
  destruct (recur _ _ _); simpl; try reflexivity.
  by rewrite foldl_push, <- app_assoc.
Qed.

Lemma jumpTo_skips recur b checker playerDirection jumpSeq curRow curCol retSeqs dest :
  ¬ takesJump b checker playerDirection jumpSeq curRow curCol dest →
  jumpTo recur b checker playerDirection jumpSeq curRow curCol retSeqs dest = Ok retSeqs.
Proof.
  intros Hno. unfold jumpTo. rewrite isValidJump_validJump. simpl.
  destruct (validJump _ _ _ _ _ _ _) eqn:Hvalid; [|reflexivity].
  destruct (alreadyJumpedPiece _ _ _) eqn:Hfresh; [reflexivity|].
  exfalso. apply Hno. split; [by rewrite isValidJump_validJump, Hvalid | exact Hfresh].
Qed.

Lemma takesJump_dec b checker playerDirection jumpSeq curRow curCol dest :
  takesJump b checker playerDirection jumpSeq curRow curCol dest ∨
  ¬ takesJump b checker playerDirection jumpSeq curRow curCol dest.
Proof.
  unfold takesJump. rewrite isValidJump_validJump.
  destruct (validJump _ _ _ _ _ _ _); [|right; intros [[=] _]].
  destruct (alreadyJumpedPiece _ _ _); [right; intros [_ [=]] | by left].
Qed.

Lemma killed_jumped curRow curCol dest :
  Jump.killed (jumped curRow curCol dest) = ((dest.1 + curRow) / 2, (dest.2 + curCol) / 2).
Proof. unfold Jump.killed, jumped. simpl. f_equal; f_equal; lia. Qed.

(** The square a taken jump captures is an occupied square of the board
    that the chain has not captured before. *)
Lemma takesJump_killed b checker playerDirection jumpSeq curRow curCol dest :
  takesJump b checker playerDirection jumpSeq curRow curCol dest →
  ∃ other,
    inBounds b (Jump.killedRow (jumped curRow curCol dest))
               (Jump.killedCol (jumped curRow curCol dest)) ∧
    square b !! Jump.killed (jumped curRow curCol dest) = Some other ∧
    Checker.color (heap b other) ≠ Checker.color (heap b checker) ∧
    Jump.killed (jumped curRow curCol dest) ∉ Jump.killed <$> jumpSeq.
Proof.
  intros [Hvalid Hfresh].
  rewrite isValidJump_validJump in Hvalid. injection Hvalid as Hvalid.
  apply alreadyJumpedPiece_not_elem in Hfresh.
  change (Jump.killed (jumped curRow curCol dest) ∉ Jump.killed <$> jumpSeq) in Hfresh.
  change (Jump.killedRow (jumped curRow curCol dest))
    with (Jump.killed (jumped curRow curCol dest)).1.
  change (Jump.killedCol (jumped curRow curCol dest))
    with (Jump.killed (jumped curRow curCol dest)).2.
  rewrite killed_jumped in *. simpl.
  unfold validJump in Hvalid. apply andb_true_iff in Hvalid as [_ Hother].
  destruct (cellAt b ((dest.1 + curRow) / 2) ((dest.2 + curCol) / 2)) as [other|] eqn:Hcell;
    [|discriminate].
  apply cellAt_Some in Hcell as [Hin Hsq]. exists other.
  split; [done|]. split; [done|]. split; [|done].
  apply negb_true_iff, String.eqb_neq in Hother. exact Hother.
Qed.

(** ** Rules: the search for jump sequences terminates *)

Section Search.
Context (b : Board) (checker : loc) (playerDirection : Z).

Lemma uncaptured_bound jumpSeq : (uncaptured b jumpSeq ≤ size (square b))%nat.
Proof.
  unfold uncaptured. rewrite <- (size_dom (D := gset (Z * Z)) (square b)).
  apply subseteq_size. intros k Hk. apply elem_of_difference in Hk. tauto.
Qed.

Lemma uncaptured_decreases jumpSeq curRow curCol dest :
  takesJump b checker playerDirection jumpSeq curRow curCol dest →
  (uncaptured b (jumpSeq ++ [jumped curRow curCol dest]) < uncaptured b jumpSeq)%nat.
Proof.
  intros Htakes.
  destruct (takesJump_killed _ _ _ _ _ _ _ Htakes) as (other & _ & Hsq & _ & Hfresh).
  unfold uncaptured. apply subset_size.
  rewrite fmap_app, list_to_set_app_L. simpl.
  assert (Hdom : Jump.killed (jumped curRow curCol dest) ∈ dom (square b))
    by (apply elem_of_dom; eauto).
  assert (Hnot : Jump.killed (jumped curRow curCol dest)
                 ∉ (list_to_set (Jump.killed <$> jumpSeq) : gset (Z * Z)))
    by (by rewrite elem_of_list_to_set).
  split.
  - intros k Hk. apply elem_of_difference in Hk as [Hk Hk'].
    apply elem_of_difference. split; [done|].
    intros Hk''. apply Hk'. apply elem_of_union. by left.
  - intros Hsub.
    assert (Hin : Jump.killed (jumped curRow curCol dest)
                  ∈ dom (square b) ∖ (list_to_set (Jump.killed <$> jumpSeq) : gset (Z * Z)))
      by (by apply elem_of_difference).
    apply Hsub, elem_of_difference in Hin as [_ Hin].
    apply Hin, elem_of_union. right. apply elem_of_union. left.
    by apply elem_of_singleton.
Qed.

Lemma validJumpsFor_fuel_S fuel jumpSeq curRow curCol :
  validJumpsFor_fuel (S fuel) b checker playerDirection jumpSeq curRow curCol =
  forEach (jumpTo (validJumpsFor_fuel fuel b checker playerDirection)
                  b checker playerDirection jumpSeq curRow curCol)
          (possibleDestinations curRow curCol) [].
Proof. reflexivity. Qed.

Lemma validJumpsFor_fuel_returns fuel :
  ∀ jumpSeq curRow curCol,
    (uncaptured b jumpSeq < fuel)%nat →
    ∃ chains, validJumpsFor_fuel fuel b checker playerDirection jumpSeq curRow curCol = Ok chains.
Proof.
  induction fuel as [|fuel IH]; intros jumpSeq curRow curCol Hfuel; [lia|].
  rewrite validJumpsFor_fuel_S. apply forEach_through. intros acc dest _.
  destruct (takesJump_dec b checker playerDirection jumpSeq curRow curCol dest) as [Htakes|Hno].
  - rewrite (jumpTo_takes _ _ _ _ _ _ _ _ _ Htakes).
    destruct (IH (jumpSeq ++ [jumped curRow curCol dest]) dest.1 dest.2) as [future ->].
    + pose proof (uncaptured_decreases _ _ _ _ Htakes). lia.
    + simpl. by eexists.
  - rewrite (jumpTo_skips _ _ _ _ _ _ _ _ _ Hno). by eexists.
Qed.

Lemma jumpTo_mono recur recur' jumpSeq curRow curCol acc dest v :
  (∀ js r c w, recur js r c = Ok w → recur' js r c = Ok w) →
  jumpTo recur b checker playerDirection jumpSeq curRow curCol acc dest = Ok v →
  jumpTo recur' b checker playerDirection jumpSeq curRow curCol acc dest = Ok v.
Proof.
  intros Hrecur.
  destruct (takesJump_dec b checker playerDirection jumpSeq curRow curCol dest) as [Htakes|Hno].
  - rewrite !(jumpTo_takes _ _ _ _ _ _ _ _ _ Htakes).
    destruct (recur _ _ _) as [w| |] eqn:E; simpl; try discriminate.
    by rewrite (Hrecur _ _ _ _ E).
  - by rewrite !(jumpTo_skips _ _ _ _ _ _ _ _ _ Hno).
Qed.

Lemma validJumpsFor_fuel_mono fuel :
  ∀ fuel' jumpSeq curRow curCol chains,
    (fuel ≤ fuel')%nat →
    validJumpsFor_fuel fuel b checker playerDirection jumpSeq curRow curCol = Ok chains →
    validJumpsFor_fuel fuel' b checker playerDirection jumpSeq curRow curCol = Ok chains.
Proof.
  induction fuel as [|fuel IH]; intros fuel' jumpSeq curRow curCol chains Hle; [discriminate|].
  destruct fuel' as [|fuel']; [lia|]. rewrite !validJumpsFor_fuel_S.
  apply forEach_mono. intros acc dest v _. apply jumpTo_mono.
  intros js r c w. apply IH. lia.
Qed.

(** The recursive equation of the source holds of [validJumpsFor]. *)
Lemma validJumpsFor_unfold jumpSeq curRow curCol :
  validJumpsFor b checker playerDirection jumpSeq curRow curCol =
  forEach (jumpTo (validJumpsFor b checker playerDirection)
                  b checker playerDirection jumpSeq curRow curCol)
          (possibleDestinations curRow curCol) [].
Proof.
  unfold validJumpsFor at 1.
  destruct (validJumpsFor_fuel_returns (S (size (square b)))
              jumpSeq curRow curCol) as [chains Hchains].
  { pose proof (uncaptured_bound jumpSeq). lia. }
  rewrite Hchains. symmetry. rewrite validJumpsFor_fuel_S in Hchains.
  eapply forEach_mono; [|exact Hchains].
  intros acc dest v _. apply jumpTo_mono.
  intros js r c w. unfold validJumpsFor. apply validJumpsFor_fuel_mono. lia.
Qed.

Lemma validJumpsFor_returns jumpSeq curRow curCol :
  ∃ chains, validJumpsFor b checker playerDirection jumpSeq curRow curCol = Ok chains.
Proof.
  apply validJumpsFor_fuel_returns. pose proof (uncaptured_bound jumpSeq). lia.
Qed.

(** C6: the search terminates.  Whatever the board, the checker, the
    direction, the starting square and the list of jumps already made, the
    recursion returns with any fuel above the number of occupied cells not
    yet captured, and the result does not depend on the fuel; and every
    recursive call is made with the list extended by one jump whose
    captured square is an occupied square of the board that was not in the
    list, so that this number goes down at each call. *)
Theorem validJumpsFor_terminates jumpSeq curRow curCol :
  (∃ chains,
     validJumpsFor b checker playerDirection jumpSeq curRow curCol = Ok chains ∧
     ∀ fuel, (uncaptured b jumpSeq < fuel)%nat →
       validJumpsFor_fuel fuel b checker playerDirection jumpSeq curRow curCol = Ok chains) ∧
  (∀ dest recur retSeqs,
     dest ∈ possibleDestinations curRow curCol →
     takesJump b checker playerDirection jumpSeq curRow curCol dest →
     let next := jumped curRow curCol dest in
     jumpTo recur b checker playerDirection jumpSeq curRow curCol retSeqs dest =
       (futureJumps ← recur (jumpSeq ++ [next]) dest.1 dest.2;
        Ok (retSeqs ++ futureJumps ++ [jumpSeq ++ [next]])) ∧
     inBounds b (Jump.killedRow next) (Jump.killedCol next) ∧
     is_Some (square b !! Jump.killed next) ∧
     (Jump.killed next ∉ Jump.killed <$> jumpSeq) ∧
     (uncaptured b (jumpSeq ++ [next]) < uncaptured b jumpSeq)%nat) ∧
  (∀ dest recur retSeqs,
     ¬ takesJump b checker playerDirection jumpSeq curRow curCol dest →
     jumpTo recur b checker playerDirection jumpSeq curRow curCol retSeqs dest = Ok retSeqs).
Proof.
  split; [|split].
  - destruct (validJumpsFor_fuel_returns (S (uncaptured b jumpSeq))
                jumpSeq curRow curCol) as [chains Hchains]; [lia|].
    exists chains. split.
    + unfold validJumpsFor. eapply validJumpsFor_fuel_mono; [|exact Hchains].
      pose proof (uncaptured_bound jumpSeq). lia.
    + intros fuel Hfuel. eapply validJumpsFor_fuel_mono; [|exact Hchains]. lia.
  - intros dest recur retSeqs _ Htakes next.
    split; [by apply jumpTo_takes|].
    destruct (takesJump_killed _ _ _ _ _ _ _ Htakes) as (other & Hin & Hsq & _ & Hfresh).
    split; [done|]. split; [by exists other|]. split; [done|].
    by eapply uncaptured_decreases.
  - intros dest recur retSeqs. apply jumpTo_skips.
Qed.

(** ** Rules: the chains the search returns *)

Lemma forEach_jumpTo_elem recur jumpSeq curRow curCol dests :
  ∀ retSeqs chains,
    forEach (jumpTo recur b checker playerDirection jumpSeq curRow curCol) dests retSeqs
      = Ok chains →
    ∀ chain, chain ∈ chains ↔
             chain ∈ retSeqs ∨
             chainFrom recur b checker playerDirection jumpSeq curRow curCol dests chain.
Proof.
  unfold chainFrom.
  induction dests as [|dest dests IH]; intros retSeqs chains Hrun chain.
  - injection Hrun as <-. split; [by left|].
    intros [H|(dest & Hin & _)]; [done|]. by apply elem_of_nil in Hin.
  - simpl in Hrun.
    destruct (takesJump_dec b checker playerDirection jumpSeq curRow curCol dest) as [Htakes|Hno].
    + rewrite (jumpTo_takes _ _ _ _ _ _ _ _ _ Htakes) in Hrun.
      destruct (recur _ _ _) as [future| |] eqn:Hfuture; simpl in Hrun; try discriminate.
      rewrite (IH _ _ Hrun chain), !elem_of_app, list_elem_of_singleton. split.
      * intros [[H|[H|H]]|(d & Hin & Ht & Hd)].
        -- by left.
        -- right. exists dest. split; [left|]. split; [done|]. right. by exists future.
        -- right. exists dest. split; [left|]. split; [done|]. by left.
        -- right. exists d. split; [by right|]. by split.
      * intros [H|(d & Hin & Ht & Hd)]; [by left; left|].
        apply elem_of_cons in Hin as [->|Hin].
        -- left. right. destruct Hd as [->|(future' & Hf & Hch)]; [by right|].
           left. congruence.
        -- right. exists d. by split.
    + rewrite (jumpTo_skips _ _ _ _ _ _ _ _ _ Hno) in Hrun. simpl in Hrun.
      rewrite (IH _ _ Hrun chain). split.
      * intros [H|(d & Hin & Ht & Hd)]; [by left|].
        right. exists d. split; [by right|]. by split.
      * intros [H|(d & Hin & Ht & Hd)]; [by left|].
        apply elem_of_cons in Hin as [->|Hin]; [done|].
        right. exists d. by split.
Qed.

Lemma validJumpsFor_fuel_elem fuel jumpSeq curRow curCol chains :
  validJumpsFor_fuel (S fuel) b checker playerDirection jumpSeq curRow curCol = Ok chains →
  ∀ chain, chain ∈ chains ↔
           chainFrom (validJumpsFor_fuel fuel b checker playerDirection)
                     b checker playerDirection jumpSeq curRow curCol
                     (possibleDestinations curRow curCol) chain.
Proof.
  rewrite validJumpsFor_fuel_S. intros Hrun chain.
  rewrite (forEach_jumpTo_elem _ _ _ _ _ _ _ Hrun chain), elem_of_nil. tauto.
Qed.

Lemma validJumpsFor_elem jumpSeq curRow curCol chains :
  validJumpsFor b checker playerDirection jumpSeq curRow curCol = Ok chains →
  ∀ chain, chain ∈ chains ↔
           chainFrom (validJumpsFor b checker playerDirection)
                     b checker playerDirection jumpSeq curRow curCol
                     (possibleDestinations curRow curCol) chain.
Proof.
  rewrite validJumpsFor_unfold. intros Hrun chain.
  rewrite (forEach_jumpTo_elem _ _ _ _ _ _ _ Hrun chain), elem_of_nil. tauto.
Qed.

(** A property of chains that holds of the list of jumps made so far,
    and is kept when a taken jump is appended, holds of every chain the
    search returns. *)
Lemma validJumpsFor_fuel_chains (P : list Jump.t → Prop) :
  (∀ jumpSeq curRow curCol dest,
     P jumpSeq → takesJump b checker playerDirection jumpSeq curRow curCol dest →
     P (jumpSeq ++ [jumped curRow curCol dest])) →
  ∀ fuel jumpSeq curRow curCol chains chain,
    P jumpSeq →
    validJumpsFor_fuel fuel b checker playerDirection jumpSeq curRow curCol = Ok chains →
    chain ∈ chains → P chain.
Proof.
  intros Hstep. induction fuel as [|fuel IH];
    intros jumpSeq curRow curCol chains chain Hseq Hrun Hin; [discriminate|].
  apply (validJumpsFor_fuel_elem _ _ _ _ _ Hrun) in Hin
    as (dest & _ & Htakes & [->|(future & Hfuture & Hin)]).
  - by eapply Hstep.
  - eapply IH; [|exact Hfuture|exact Hin]. by eapply Hstep.
Qed.

Lemma validJumpsFor_chains (P : list Jump.t → Prop) :
  (∀ jumpSeq curRow curCol dest,
     P jumpSeq → takesJump b checker playerDirection jumpSeq curRow curCol dest →
     P (jumpSeq ++ [jumped curRow curCol dest])) →
  ∀ jumpSeq curRow curCol chains chain,
    P jumpSeq →
    validJumpsFor b checker playerDirection jumpSeq curRow curCol = Ok chains →
    chain ∈ chains → P chain.
Proof.
  intros Hstep jumpSeq curRow curCol chains chain. unfold validJumpsFor.
  by apply validJumpsFor_fuel_chains.
Qed.

(** C5: no chain the search returns captures the same square twice.
    Every returned chain is the list of jumps already made followed by the
    jumps the search added; the squares the added jumps capture are
    pairwise distinct and none of them is captured in the list already
    made.  So the chains of the outermost call, made with the empty list,
    have no repeated captured square, and neither have those of any call
    made with a list that has none. *)
Theorem validJumpsFor_no_square_twice jumpSeq curRow curCol :
  ∃ chains,
    validJumpsFor b checker playerDirection jumpSeq curRow curCol = Ok chains ∧
    ∀ chain, chain ∈ chains →
      (∃ added,
         chain = jumpSeq ++ added ∧
         NoDup (Jump.killed <$> added) ∧
         ∀ j, j ∈ added → Jump.killed j ∉ Jump.killed <$> jumpSeq) ∧
      (NoDup (Jump.killed <$> jumpSeq) → NoDup (Jump.killed <$> chain)).
Proof.
  destruct (validJumpsFor_returns jumpSeq curRow curCol)
    as [chains Hrun].
  exists chains. split; [done|]. intros chain Hin.
  assert (Hadded : ∃ added,
            chain = jumpSeq ++ added ∧
            NoDup (Jump.killed <$> added) ∧
            ∀ j, j ∈ added → Jump.killed j ∉ Jump.killed <$> jumpSeq).
  { eapply (validJumpsFor_chains
              (λ js, ∃ added, js = jumpSeq ++ added ∧
                              NoDup (Jump.killed <$> added) ∧
                              ∀ j, j ∈ added → Jump.killed j ∉ Jump.killed <$> jumpSeq));
      [| |exact Hrun|exact Hin].
    - clear. intros js r c dest (added & -> & Hnodup & Hfresh) Htakes.
      destruct (takesJump_killed _ _ _ _ _ _ _ Htakes) as (other & _ & _ & _ & Hnew).
      rewrite fmap_app, elem_of_app in Hnew.
      exists (added ++ [jumped r c dest]). split; [by rewrite app_assoc|]. split.
      + rewrite fmap_app. apply list.NoDup_app. split; [done|]. split.
        * intros k Hk Hk'. simpl in Hk'. apply list_elem_of_singleton in Hk'.
          subst. tauto.
        * simpl. apply NoDup_singleton.
      + intros j Hj. apply elem_of_app in Hj as [Hj|Hj]; [by apply Hfresh|].
        apply list_elem_of_singleton in Hj as ->. tauto.
    - exists []. rewrite app_nil_r. split; [done|]. split; [constructor|].
      intros j Hj. by apply elem_of_nil in Hj. }
  split; [exact Hadded|].
  destruct Hadded as (added & -> & Hnodup & Hfresh). intros Hseq.
  rewrite fmap_app. apply list.NoDup_app. split; [done|]. split; [|done].
  intros k Hk Hk'. apply list_elem_of_fmap in Hk' as (j & -> & Hj).
  by apply (Hfresh j Hj).
Qed.

Lemma validJumpsFor_fuel_extends fuel jumpSeq curRow curCol chains chain :
  validJumpsFor_fuel fuel b checker playerDirection jumpSeq curRow curCol = Ok chains →
  chain ∈ chains → jumpSeq `prefix_of` chain.
Proof.
  apply (validJumpsFor_fuel_chains (λ js, jumpSeq `prefix_of` js)); [|done].
  intros js r c dest Hjs _. by apply prefix_app_r.
Qed.

Lemma prefixes_same_length {A} (p q l : list A) :
  p `prefix_of` l → q `prefix_of` l → length p = length q → p = q.
Proof.
  intros Hp Hq Hlen.
  destruct (prefix_weak_total _ _ _ Hp Hq) as [H|H].
  - apply prefix_length_eq; [done|lia].
  - symmetry. apply prefix_length_eq; [done|lia].
Qed.

(** Stopping a returned chain earlier, after any of the jumps the search
    added, is a returned chain too. *)
Lemma validJumpsFor_fuel_stops fuel :
  ∀ jumpSeq curRow curCol chains chain stop,
    validJumpsFor_fuel fuel b checker playerDirection jumpSeq curRow curCol = Ok chains →
    chain ∈ chains → stop `prefix_of` chain → (length jumpSeq < length stop)%nat →
    stop ∈ chains.
Proof.
  induction fuel as [|fuel IH];
    intros jumpSeq curRow curCol chains chain stop Hrun Hin Hstop Hlen; [discriminate|].
  pose proof (validJumpsFor_fuel_elem _ _ _ _ _ Hrun) as Helem.
  apply Helem in Hin as (dest & Hdest & Htakes & Hfrom).
  apply Helem. exists dest. split; [done|]. split; [done|].
  destruct Hfrom as [->|(future & Hfuture & Hin)].
  - left. apply prefix_length_eq; [done|].
    rewrite length_app in *. simpl. lia.
  - pose proof (validJumpsFor_fuel_extends _ _ _ _ _ _ Hfuture Hin) as Hext.
    destruct (decide (length stop = length (jumpSeq ++ [jumped curRow curCol dest]))) as [Heq|Hne].
    + left. by eapply prefixes_same_length.
    + right. exists future. split; [done|].
      eapply IH; [exact Hfuture|exact Hin|exact Hstop|].
      rewrite length_app in *. simpl in *. lia.
Qed.

(** C4: each landing square of a jump the search takes, the first one
    included, gives the result both the chain that stops on that landing
    and every chain the recursion from that landing returns; hence a
    returned chain cut after any of its jumps is a returned chain as well,
    and the result is not made of maximal chains only. *)
Theorem validJumpsFor_keeps_every_stop jumpSeq curRow curCol :
  ∃ chains,
    validJumpsFor b checker playerDirection jumpSeq curRow curCol = Ok chains ∧
    (∀ dest,
       dest ∈ possibleDestinations curRow curCol →
       takesJump b checker playerDirection jumpSeq curRow curCol dest →
       jumpSeq ++ [jumped curRow curCol dest] ∈ chains ∧
       ∃ future,
         validJumpsFor b checker playerDirection
                       (jumpSeq ++ [jumped curRow curCol dest]) dest.1 dest.2 = Ok future ∧
         ∀ chain, chain ∈ future → chain ∈ chains) ∧
    (∀ chain stop,
       chain ∈ chains → stop `prefix_of` chain → (length jumpSeq < length stop)%nat →
       stop ∈ chains).
Proof.
  destruct (validJumpsFor_returns jumpSeq curRow curCol)
    as [chains Hrun].
  exists chains. split; [done|]. split.
  - intros dest Hdest Htakes.
    pose proof (validJumpsFor_elem _ _ _ _ Hrun) as Helem.
    destruct (validJumpsFor_returns
                (jumpSeq ++ [jumped curRow curCol dest]) dest.1 dest.2) as [future Hfuture].
    split.
    + apply Helem. exists dest. split; [done|]. split; [done|]. by left.
    + exists future. split; [done|]. intros chain Hin.
      apply Helem. exists dest. split; [done|]. split; [done|]. right. by exists future.
  - intros chain stop. unfold validJumpsFor in Hrun.
    by eapply validJumpsFor_fuel_stops.
Qed.

End Search.

Example validJumpsFor_doubleJump :
  validJumpsFor doubleJump 1%nat 1 [] 1 1 = Ok [[firstJump; secondJump]; [firstJump]].
Proof. vm_compute. reflexivity. Qed.

Example validMovesFor_doubleJump :
  validMovesFor doubleJump 1%nat 1 =
  Ok [Move.mk 0 2 [];
      Move.mk 5 5 [Captured.mk 2 2 "black" false; Captured.mk 4 4 "black" false];
      Move.mk 3 3 [Captured.mk 2 2 "black" false]].
Proof. vm_compute. reflexivity. Qed.

Example validMovesFor_facingCheckers :
  validMovesFor facingCheckers 1%nat 1 =
  Ok [Move.mk 2 3 []; Move.mk 5 4 [Captured.mk 3 4 "black" false]].
Proof. vm_compute. reflexivity. Qed.

Example makeMove_facingCheckers :
  ∃ b', makeMove facingCheckers 1%nat 1 1 4 5 =
          Ok (Some (Ramifications.mk 5 4 [Captured.mk 3 4 "black" false]
                                     (Some 3) (Some 2) false), b') ∧
        isEmptyLocation b' 3 4 = Ok true ∧
        getCheckerAt b' 4 5 = Ok (Some 1%nat) ∧
        event <$> dispatched b' =
          [mkBoardEvent "move" (MoveDetails 1%nat 4 5 (Some 2) (Some 3));
           mkBoardEvent "remove" (RemoveDetails 2%nat (Some 3) (Some 4))].
Proof. eexists. split; [vm_compute; reflexivity|]. repeat split. Qed.

Lemma doubleJump_takes_first : takesJump doubleJump 1%nat 1 [] 1 1 (3, 3).
Proof. split; vm_compute; reflexivity. Defined.

Lemma validJumpsFor_terminates_witness :
  (∃ chains,
     validJumpsFor doubleJump 1%nat 1 [] 1 1 = Ok chains ∧
     ∀ fuel, (uncaptured doubleJump [] < fuel)%nat →
       validJumpsFor_fuel fuel doubleJump 1%nat 1 [] 1 1 = Ok chains) ∧
  (uncaptured doubleJump ([] ++ [jumped 1%Z 1%Z (3%Z, 3%Z)]) < uncaptured doubleJump [])%nat.
Proof.
  destruct (validJumpsFor_terminates doubleJump 1%nat 1 [] 1 1) as (Hreturns & Hcalls & _).
  split; [exact Hreturns|].
  destruct (Hcalls (3%Z, 3%Z) (λ _ _ _, Ok []) []) as (_ & _ & _ & _ & Hless).
  - left.
  - exact doubleJump_takes_first.
  - exact Hless.
Defined.

Lemma validJumpsFor_no_square_twice_witness :
  ∃ chains,
    validJumpsFor doubleJump 1%nat 1 [] 1 1 = Ok chains ∧
    ∀ chain, chain ∈ chains → NoDup (Jump.killed <$> chain).
Proof.
  destruct (validJumpsFor_no_square_twice doubleJump 1%nat 1 [] 1 1) as (chains & Hrun & Hall).
  exists chains. split; [exact Hrun|]. intros chain Hin.
  destruct (Hall chain Hin) as [_ Hnodup]. apply Hnodup. simpl. constructor.
Defined.

Lemma validJumpsFor_keeps_every_stop_witness :
  ∃ chains,
    validJumpsFor doubleJump 1%nat 1 [] 1 1 = Ok chains ∧
    [] ++ [jumped 1 1 (3, 3)] ∈ chains ∧
    (∀ chain stop,
       chain ∈ chains → stop `prefix_of` chain → (length ([] : list Jump.t) < length stop)%nat →
       stop ∈ chains).
Proof.
  destruct (validJumpsFor_keeps_every_stop doubleJump 1%nat 1 [] 1 1)
    as (chains & Hrun & Hlandings & Hstops).
  exists chains. split; [exact Hrun|]. split; [|exact Hstops].
  destruct (Hlandings (3%Z, 3%Z)) as [Hstop _].
  - left.
  - exact doubleJump_takes_first.
  - exact Hstop.
Defined.

(** ** Rules: the candidates of [validMovesFor] *)

Lemma bind_Ok {A B} (m : res A) (f : A → res B) r :
  m ≫= f = Ok r → ∃ a, m = Ok a ∧ f a = Ok r.
Proof. destruct m; simpl; intros H; try discriminate. eauto. Qed.

Lemma bind_Ok_l {A B} (a : A) (f : A → res B) : Ok a ≫= f = f a.
Proof. reflexivity. Qed.

(** A loop that pushes one computed element per turn. *)
Lemma forEach_push {A C} (f : A → res C) l :
  ∀ acc r,
    forEach (λ acc x, m ← f x; Ok (acc ++ [m])) l acc = Ok r →
    ∃ ms, r = acc ++ ms ∧ Forall2 (λ x m, f x = Ok m) l ms.
Proof.
  induction l as [|x l IH]; intros acc r Hrun; simpl in Hrun.
  - injection Hrun as <-. exists []. by rewrite app_nil_r.
  - apply bind_Ok in Hrun as (acc' & Hbody & Hrun).
    apply bind_Ok in Hbody as (m & Hm & [= <-]).
    destruct (IH _ _ Hrun) as (ms & -> & Hall).
    exists (m :: ms). rewrite <- app_assoc. split; [done|]. by constructor.
Qed.

Lemma forEach_push_through {A C} (f : A → res C) l acc :
  (∀ x, x ∈ l → ∃ m, f x = Ok m) →
  ∃ r, forEach (λ acc x, m ← f x; Ok (acc ++ [m])) l acc = Ok r.
Proof.
  intros Hf. apply forEach_through. intros acc' x Hx.
  destruct (Hf x Hx) as [m ->]. by eexists.
Qed.

Lemma capture_loop b jumpSequence :
  ∀ acc,
    forEach
      (λ acc j,
         c ← getCheckerAt b (Jump.killedRow j) (Jump.killedCol j);
         c' ← getCheckerAt b (Jump.killedRow j) (Jump.killedCol j);
         match c, c' with
         | Some other, Some other' =>
             Ok (acc ++ [Captured.mk (Jump.killedRow j) (Jump.killedCol j)
                                     (Checker.color (heap b other))
                                     (Checker.isKing (heap b other'))])
         | _, _ => TypeError
         end)
      jumpSequence acc =
    forEach (λ acc j, e ← capture b j; Ok (acc ++ [e])) jumpSequence acc.
Proof.
  intros acc. apply forEach_ext. clear. intros acc j.
  unfold capture. rewrite getCheckerAt_cellAt. simpl.
  by destruct (cellAt b (Jump.killedRow j) (Jump.killedCol j)).
Qed.

Lemma collapseJumpSequence_capture b jumpSequence :
  collapseJumpSequence b jumpSequence =
  match list.last jumpSequence with
  | None => TypeError
  | Some final =>
      captured ← forEach (λ acc j, e ← capture b j; Ok (acc ++ [e])) jumpSequence [];
      Ok (Move.mk (Jump.col final) (Jump.row final) captured)
  end.
Proof.
  unfold collapseJumpSequence. destruct (list.last jumpSequence); [|reflexivity].
  by rewrite capture_loop.
Qed.

Lemma capture_records b j e : capture b j = Ok e ↔ records b j e.
Proof.
  unfold capture, records. rewrite getCheckerAt_cellAt. simpl. split.
  - destruct (cellAt b (Jump.killedRow j) (Jump.killedCol j)) as [dead|] eqn:Hcell;
      [|discriminate].
    intros [= <-]. apply cellAt_Some in Hcell as [Hin Hsq]. by exists dead.
  - intros (dead & Hin & Hsq & ->). by rewrite cellAt_inBounds, Hsq.
Qed.

Lemma collapseJumpSequence_Ok b jumpSequence m :
  collapseJumpSequence b jumpSequence = Ok m ↔
  ∃ final, list.last jumpSequence = Some final ∧
           Move.to_col m = Jump.col final ∧ Move.to_row m = Jump.row final ∧
           Forall2 (records b) jumpSequence (Move.remove m).
Proof.
  rewrite collapseJumpSequence_capture. split.
  - destruct (list.last jumpSequence) as [final|]; [|discriminate].
    intros Hrun. apply bind_Ok in Hrun as (captured & Hloop & [= <-]).
    apply forEach_push in Hloop as (es & -> & Hall).
    exists final. simpl. repeat split.
    eapply Forall2_impl; [|exact Hall]. intros j e. apply capture_records.
  - intros (final & -> & Hcol & Hrow & Hall).
    assert (Hloop : ∀ acc, forEach (λ acc j, e ← capture b j; Ok (acc ++ [e])) jumpSequence acc
                           = Ok (acc ++ Move.remove m)).
    { clear -Hall. induction Hall as [|j e js es Hje Hall IH]; intros acc; simpl.
      - by rewrite app_nil_r.
      - apply capture_records in Hje. rewrite Hje. simpl.
        rewrite IH, <- app_assoc. reflexivity. }
    rewrite Hloop. simpl. destruct m. simpl in *. by subst.
Qed.

(** The chains of the outermost search are not empty and capture
    occupied squares only. *)
Lemma validJumpsFor_chain_occupied b checker playerDirection curRow curCol chains chain :
  validJumpsFor b checker playerDirection [] curRow curCol = Ok chains →
  chain ∈ chains →
  chain ≠ [] ∧
  Forall (λ j, inBounds b (Jump.killedRow j) (Jump.killedCol j) ∧
               ∃ dead, square b !! (Jump.killedRow j, Jump.killedCol j) = Some dead ∧
                       Checker.color (heap b dead) ≠ Checker.color (heap b checker)) chain.
Proof.
  intros Hrun Hin. split.
  - apply (validJumpsFor_elem _ _ _ _ _ _ _ Hrun) in Hin
      as (dest & _ & _ & [->|(future & Hfuture & Hin)]); [done|].
    pose proof (validJumpsFor_fuel_extends _ _ _ _ _ _ _ _ _ Hfuture Hin) as [ext ->].
    done.
  - eapply (validJumpsFor_chains b checker playerDirection
              (λ js, Forall (λ j, inBounds b (Jump.killedRow j) (Jump.killedCol j) ∧
                                  ∃ dead, square b !! (Jump.killedRow j, Jump.killedCol j) = Some dead ∧
                                          Checker.color (heap b dead) ≠ Checker.color (heap b checker)) js));
      [|constructor|exact Hrun|exact Hin].
    clear. intros js r c dest Hjs Htakes. simpl.
    destruct (takesJump_killed _ _ _ _ _ _ _ Htakes) as (other & Hb & Hsq & Hcolor & _).
    apply Forall_app. split; [done|]. constructor; [|constructor].
    split; [done|]. by exists other.
Qed.

Lemma collapseJumpSequence_returns b checker playerDirection curRow curCol chains chain :
  validJumpsFor b checker playerDirection [] curRow curCol = Ok chains →
  chain ∈ chains → ∃ m, collapseJumpSequence b chain = Ok m.
Proof.
  intros Hrun Hin.
  destruct (validJumpsFor_chain_occupied _ _ _ _ _ _ _ Hrun Hin) as [Hne Hocc].
  rewrite collapseJumpSequence_capture.
  destruct (list.last chain) as [final|] eqn:Hlast;
    [|by apply last_None in Hlast].
  destruct (forEach_push_through (capture b) chain []) as [captured ->]; [|by eexists].
  intros j Hj. rewrite list.Forall_forall in Hocc.
  destruct (Hocc j Hj) as (Hb & dead & Hsq & _).
  eexists. apply capture_records. by exists dead.
Qed.

(** The candidates are simple steps, which capture nothing, followed by
    one candidate for each chain of the search, in the order of the
    chains. *)
Lemma validMovesFor_Ok b checker playerDirection moves :
  validMovesFor b checker playerDirection = Ok moves →
  ∃ row col steps chains jumpMoves,
    Checker.pos (heap b checker) = Some (row, col) ∧
    moves = steps ++ jumpMoves ∧
    Forall (λ m, Move.remove m = []) steps ∧
    validJumpsFor b checker playerDirection [] row col = Ok chains ∧
    Forall2 (λ chain m, collapseJumpSequence b chain = Ok m) chains jumpMoves.
Proof.
  unfold validMovesFor.
  destruct (Checker.pos (heap b checker)) as [[row col]|]; [|discriminate].
  intros Hrun.
  apply bind_Ok in Hrun as (forward & Hforward & Hrun).
  apply bind_Ok in Hrun as (backward & Hbackward & Hrun).
  apply bind_Ok in Hrun as (chains & Hchains & Hrun).
  apply forEach_push in Hrun as (jumpMoves & -> & Hall).
  exists row, col, backward, chains, jumpMoves. repeat split; try done.
  assert (Hsteps : Forall (λ m, Move.remove m = []) forward).
  { eapply forEach_invariant; [|constructor|exact Hforward].
    intros acc i acc' _ Hacc. simpl. rewrite isEmptyLocation_cellAt. simpl.
    repeat case_match; intros [= <-]; try done.
    apply Forall_app. split; [done|]. by repeat constructor. }
  eapply forEach_invariant; [|exact Hsteps|exact Hbackward].
  intros acc i acc' _ Hacc. simpl. rewrite isEmptyLocation_cellAt. simpl.
  repeat case_match; intros [= <-]; try done.
  apply Forall_app. split; [done|]. by repeat constructor.
Qed.

(** [validMovesFor] returns for every checker that records a position. *)
Lemma validMovesFor_returns b checker playerDirection :
  is_Some (Checker.pos (heap b checker)) →
  ∃ moves, validMovesFor b checker playerDirection = Ok moves.
Proof.
  intros [[row col] Hpos]. unfold validMovesFor. rewrite Hpos.
  destruct (forEach_through
              (λ validMoves i,
                 if negb (i =? 0) then
                   if isValidLocation b (row + playerDirection) (col + i) then
                     e ← isEmptyLocation b (row + playerDirection) (col + i);
                     if e : bool
                     then Ok (validMoves ++ [Move.mk (col + i) (row + playerDirection) []])
                     else Ok validMoves
                   else Ok validMoves
                 else Ok validMoves)
              [-1; 0; 1] []) as [forward ->].
  { intros acc i _. rewrite isEmptyLocation_cellAt. simpl. repeat case_match; by eexists. }
  rewrite bind_Ok_l.
  destruct (forEach_through
              (λ validMoves i,
                 if negb (i =? 0) then
                   if isValidLocation b (row - playerDirection) (col + i) then
                     e ← isEmptyLocation b (row - playerDirection) (col + i);
                     if e && Checker.isKing (heap b checker)
                     then Ok (validMoves ++ [Move.mk (col + i) (row - playerDirection) []])
                     else Ok validMoves
                   else Ok validMoves
                 else Ok validMoves)
              [-1; 0; 1] forward) as [backward ->].
  { intros acc i _. rewrite isEmptyLocation_cellAt. simpl. repeat case_match; by eexists. }
  rewrite bind_Ok_l.
  destruct (validJumpsFor_returns b checker playerDirection [] row col) as [chains Hchains].
  rewrite Hchains, bind_Ok_l.
  apply forEach_push_through. intros chain Hin.
  by eapply collapseJumpSequence_returns.
Qed.

(** ** Rules: [makeMove] *)

Lemma ramificationsOfMove_Some b checker turnDirection playerDirection toRow toCol m :
  ramificationsOfMove b checker turnDirection playerDirection toRow toCol = Ok (Some m) →
  playerDirection = turnDirection ∧
  ∃ moves, validMovesFor b checker playerDirection = Ok moves ∧
           List.find (matches toRow toCol) moves = Some m.
Proof.
  unfold ramificationsOfMove.
  destruct (playerDirection =? turnDirection) eqn:Hturn; simpl; [|discriminate].
  apply Z.eqb_eq in Hturn. intros Hrun.
  apply bind_Ok in Hrun as (moves & Hmoves & [= Hfind]).
  split; [done|]. by exists moves.
Qed.

Lemma find_none_of {A} (f : A → bool) l :
  Forall (λ x, f x = false) l → List.find f l = None.
Proof.
  induction 1 as [|x l Hx _ IH]; simpl; [reflexivity|]. by rewrite Hx.
Qed.

(** C2: [makeMove] returns [null] when the checker's direction is not the
    turn's, and when the destination is that of no candidate of
    [validMovesFor]; the board it leaves is the board it was given: same
    grid, same checkers, no event dispatched.  ([validMovesFor] returns its
    candidates for every checker that records a position.) *)
Theorem makeMove_invalid b checker turnDirection playerDirection toRow toCol :
  (playerDirection ≠ turnDirection →
   makeMove b checker turnDirection playerDirection toRow toCol = Ok (None, b)) ∧
  (∀ moves,
     validMovesFor b checker playerDirection = Ok moves →
     Forall (λ m, ¬ (Move.to_row m = toRow ∧ Move.to_col m = toCol)) moves →
     makeMove b checker turnDirection playerDirection toRow toCol = Ok (None, b)) ∧
  (is_Some (Checker.pos (heap b checker)) →
   ∃ moves, validMovesFor b checker playerDirection = Ok moves).
Proof.
  split; [|split].
  - intros Hturn. unfold makeMove, ramificationsOfMove.
    apply Z.eqb_neq in Hturn. by rewrite Hturn.
  - intros moves Hmoves Hnone. unfold makeMove, ramificationsOfMove.
    destruct (playerDirection =? turnDirection); simpl; [|reflexivity].
    rewrite Hmoves. simpl. rewrite find_none_of; [reflexivity|].
    eapply list.Forall_impl; [exact Hnone|]. intros m Hm. unfold matches. simpl.
    apply andb_false_iff.
    destruct (Move.to_col m =? toCol) eqn:Hc; [|by left].
    destruct (Move.to_row m =? toRow) eqn:Hr; [|by right].
    apply Z.eqb_eq in Hc, Hr. exfalso. apply Hm. by split.
  - apply validMovesFor_returns.
Qed.

Lemma makeMove_invalid_witness :
  makeMove doubleJump 1%nat (-1) 1 5 5 = Ok (None, doubleJump) ∧
  makeMove doubleJump 1%nat 1 1 7 7 = Ok (None, doubleJump).
Proof.
  split.
  - destruct (makeMove_invalid doubleJump 1%nat (-1) 1 5 5) as (Hturn & _ & _).
    apply Hturn. lia.
  - destruct (makeMove_invalid doubleJump 1%nat 1 1 7 7) as (_ & Hnone & _).
    eapply Hnone.
    + vm_compute. reflexivity.
    + repeat constructor; simpl; lia.
Defined.

Lemma moveTo_heap_others b checker toRow toCol b1 :
  moveTo b checker toRow toCol = Ok b1 →
  ∀ l, l ≠ checker → heap b1 l = heap b l.
Proof.
  unfold moveTo. rewrite isEmptyLocation_cellAt. simpl.
  destruct (cellAt b toRow toCol); [by intros [= <-]|].
  intros Hrun l Hl.
  apply bind_Ok in Hrun as (b2 & Hdelete & Hrun).
  apply bind_Ok in Hrun as (b3 & Hwrite & [= <-]).
  unfold delete_square in Hdelete.
  destruct (Checker.pos (heap b checker)) as [[row col]|]; [|discriminate].
  destruct (has_row b row); [|discriminate]. injection Hdelete as <-.
  unfold write_square in Hwrite.
  destruct (has_row _ toRow); [|discriminate]. injection Hwrite as <-.
  destruct (canBeKing _ checker toRow toCol); simpl;
    by rewrite ?fn_lookup_insert_ne by done.
Qed.

Lemma remove_heap b checker b' : remove b checker = Ok b' → heap b' = heap b.
Proof.
  unfold remove, delete_square.
  destruct (Checker.pos (heap b checker)) as [[row col]|]; [|discriminate].
  destruct (has_row b row); [|discriminate]. by intros [= <-].
Qed.

Lemma removeAtSquare_heap b c b' : removeAtSquare b c = Ok b' → heap b' = heap b.
Proof.
  unfold removeAtSquare. rewrite getCheckerAt_cellAt. simpl.
  destruct (cellAt b (Captured.row c) (Captured.col c)); [|discriminate].
  apply remove_heap.
Qed.

Lemma removals_heap cs b b' : forEach removeAtSquare cs b = Ok b' → heap b' = heap b.
Proof.
  apply (forEach_invariant (λ b'', heap b'' = heap b)); [|reflexivity].
  intros b1 c b2 _ Hb1 Hrun. rewrite <- Hb1. by eapply removeAtSquare_heap.
Qed.

(** The parts of a [makeMove] that returns a result. *)
Lemma makeMove_Some b checker turnDirection playerDirection toRow toCol r b' :
  makeMove b checker turnDirection playerDirection toRow toCol = Ok (Some r, b') →
  ∃ m b1,
    ramificationsOfMove b checker turnDirection playerDirection toRow toCol = Ok (Some m) ∧
    moveTo b checker (Move.to_row m) (Move.to_col m) = Ok b1 ∧
    forEach removeAtSquare (Move.remove m) b1 = Ok b' ∧
    r = Ramifications.mk (Move.to_col m) (Move.to_row m) (Move.remove m)
          (Checker.col (heap b checker)) (Checker.row (heap b checker))
          (negb (Checker.isKing (heap b checker)) && Checker.isKing (heap b1 checker)).
Proof.
  unfold makeMove. intros Hrun.
  apply bind_Ok in Hrun as ([m|] & Hram & Hrun); [|discriminate].
  apply bind_Ok in Hrun as (b1 & Hmove & Hrun).
  apply bind_Ok in Hrun as (b2 & Hremove & [= <- <-]).
  by exists m, b1.
Qed.

(** C3: a [makeMove] that succeeds returns the position the checker
    recorded before the move, the destination asked for, [made_king] true
    exactly when the checker was no king before the call and is one after
    it, and the captures of the chosen candidate, the first one of
    [validMovesFor] with that destination: none for a simple step, and for
    a chain of the search one entry per jump, in the order of the chain,
    with the color and king flag the captured checker had before it was
    removed. *)
Theorem makeMove_result b checker turnDirection playerDirection toRow toCol r b' :
  makeMove b checker turnDirection playerDirection toRow toCol = Ok (Some r, b') →
  ∃ row col moves m,
    Checker.pos (heap b checker) = Some (row, col) ∧
    Ramifications.from_row r = Some row ∧
    Ramifications.from_col r = Some col ∧
    Ramifications.to_row r = toRow ∧
    Ramifications.to_col r = toCol ∧
    Ramifications.made_king r =
      negb (Checker.isKing (heap b checker)) && Checker.isKing (heap b' checker) ∧
    validMovesFor b checker playerDirection = Ok moves ∧
    List.find (matches toRow toCol) moves = Some m ∧
    Ramifications.remove r = Move.remove m ∧
    (Ramifications.remove r = [] ∨
     ∃ chains chain final,
       validJumpsFor b checker playerDirection [] row col = Ok chains ∧
       chain ∈ chains ∧
       list.last chain = Some final ∧
       Jump.row final = toRow ∧ Jump.col final = toCol ∧
       Forall2 (reports b b' checker) chain (Ramifications.remove r)).
Proof.
  intros Hrun.
  apply makeMove_Some in Hrun as (m & b1 & Hram & Hmove & Hremove & ->).
  apply ramificationsOfMove_Some in Hram as (_ & moves & Hmoves & Hfind).
  destruct (validMovesFor_Ok _ _ _ _ Hmoves)
    as (row & col & steps & chains & jumpMoves & Hpos & -> & Hsteps & Hchains & Hall).
  exists row, col, (steps ++ jumpMoves), m. simpl.
  pose proof (removals_heap _ _ _ Hremove) as Hheap.
  pose proof (moveTo_heap_others _ _ _ _ _ Hmove) as Hothers.
  apply List.find_some in Hfind as Hfound. destruct Hfound as [Hin Hmatch].
  unfold matches in Hmatch. apply andb_true_iff in Hmatch as [Hcol Hrow].
  apply Z.eqb_eq in Hcol, Hrow.
  unfold Checker.row, Checker.col. rewrite Hpos, Hheap. simpl.
  repeat (split; [done|]).
  apply list_elem_of_In, elem_of_app in Hin as [Hin|Hin].
  - left. rewrite list.Forall_forall in Hsteps. by apply Hsteps.
  - right. apply list_elem_of_lookup in Hin as [i Hi].
    destruct (Forall2_lookup_r _ _ _ _ _ Hall Hi) as (chain & Hchain & Hcollapse).
    assert (Hinchain : chain ∈ chains) by (apply list_elem_of_lookup; eauto).
    apply collapseJumpSequence_Ok in Hcollapse as (final & Hlast & Hc & Hr & Hrec).
    exists chains, chain, final. repeat (split; [done || congruence|]).
    destruct (validJumpsFor_chain_occupied _ _ _ _ _ _ _ Hchains Hinchain) as [_ Hocc].
    clear -Hrec Hocc Hheap Hothers.
    induction Hrec as [|j e js es Hje Hrec IH]; constructor.
    + apply list.Forall_cons_1 in Hocc as [(_ & dead' & Hsq' & Hcolor) _].
      destruct Hje as (dead & _ & Hsq & ->).
      assert (dead' = dead) as -> by congruence.
      assert (Hne : dead ≠ checker) by (intros ->; done).
      exists dead. repeat split; try done.
      rewrite Hheap. by apply Hothers.
    + apply IH. by apply list.Forall_cons_1 in Hocc as [_ Hocc].
Qed.

Lemma makeMove_result_witness :
  ∃ row col moves m,
    Checker.pos (heap doubleJump 1%nat) = Some (row, col) ∧
    Ramifications.from_row doubleJumpResult = Some row ∧
    Ramifications.from_col doubleJumpResult = Some col ∧
    Ramifications.to_row doubleJumpResult = 5 ∧
    Ramifications.to_col doubleJumpResult = 5 ∧
    Ramifications.made_king doubleJumpResult =
      negb (Checker.isKing (heap doubleJump 1%nat)) &&
      Checker.isKing (heap afterDoubleJump 1%nat) ∧
    validMovesFor doubleJump 1%nat 1 = Ok moves ∧
    List.find (matches 5 5) moves = Some m ∧
    Ramifications.remove doubleJumpResult = Move.remove m ∧
    (Ramifications.remove doubleJumpResult = [] ∨
     ∃ chains chain final,
       validJumpsFor doubleJump 1%nat 1 [] row col = Ok chains ∧
       chain ∈ chains ∧
       list.last chain = Some final ∧
       Jump.row final = 5 ∧ Jump.col final = 5 ∧
       Forall2 (reports doubleJump afterDoubleJump 1%nat) chain
               (Ramifications.remove doubleJumpResult)).
Proof.
  apply (makeMove_result doubleJump 1%nat 1 1 5 5 doubleJumpResult afterDoubleJump).
  vm_compute. reflexivity.
Defined.

(** ** Board: targets off the board *)

(** X1: [add] onto a row the grid does not have throws: the target passes
    for empty, the checker's fields are written, and the store into the
    missing row fails. *)
Theorem add_outside_rows_throws b checker row col :
  row < 0 ∨ boardSize b < row → add b checker row col = TypeError.
Proof.
  intros Hrow. unfold add. rewrite isEmptyLocation_cellAt, cellAt_outside.
  - simpl. unfold write_square, has_row, set_pos, with_heap. simpl.
    destruct (0 <=? row) eqn:H0; destruct (row <=? boardSize b) eqn:H1; simpl; try reflexivity.
    apply Z.leb_le in H0, H1. lia.
  - unfold inBounds. lia.
Qed.

Lemma add_outside_rows_throws_witness :
  add (newBoard 8 noCheckers) 0%nat 9 0 = TypeError.
Proof. apply add_outside_rows_throws. right. simpl. lia. Defined.

(** X2: [add] does not reject a target outside the board.  On a row the
    grid has (row [boardSize], or any row with a column out of range) it
    stores the checker in a cell that [getCheckerAt] and [isEmptyLocation]
    go on reporting empty, and dispatches the event. *)
Theorem add_off_board_is_stored_unseen b checker row col :
  has_row b row = true → ¬ inBounds b row col →
  ∃ b', add b checker row col = Ok b' ∧
        square b' !! (row, col) = Some checker ∧
        getCheckerAt b' row col = Ok None ∧
        isEmptyLocation b' row col = Ok true ∧
        dispatched b' = dispatched b ++ [addDispatch b checker row col].
Proof.
  intros Hrow Hout.
  assert (He : isEmptyLocation b row col = Ok true)
    by (by rewrite isEmptyLocation_cellAt, cellAt_outside).
  rewrite (add_through _ _ _ _ He Hrow). eexists. split; [reflexivity|].
  split; [apply lookup_insert_eq|].
  rewrite isEmptyLocation_cellAt, getCheckerAt_cellAt, cellAt_outside; [done|].
  exact Hout.
Qed.

Lemma add_off_board_is_stored_unseen_witness :
  ∃ b', add (newBoard 8 noCheckers) 0%nat 8 3 = Ok b' ∧
        square b' !! (8, 3) = Some 0%nat ∧
        getCheckerAt b' 8 3 = Ok None ∧
        isEmptyLocation b' 8 3 = Ok true ∧
        dispatched b' =
          dispatched (newBoard 8 noCheckers) ++ [addDispatch (newBoard 8 noCheckers) 0%nat 8 3].
Proof.
  apply add_off_board_is_stored_unseen; [reflexivity|].
  unfold inBounds. simpl. lia.
Defined.

(** ** Board: checkers that were never placed *)

(** X3: a checker whose [row] and [col] were never written cannot be
    removed, moved to an empty square or asked for its moves: each of
    these throws, and so does [makeMove] when the directions agree.  A
    [moveTo] onto an occupied square returns before it looks at the
    checker. *)
Theorem unplaced_checker_throws b checker :
  Checker.pos (heap b checker) = None →
  remove b checker = TypeError ∧
  (∀ toRow toCol, isEmptyLocation b toRow toCol = Ok true →
                  moveTo b checker toRow toCol = TypeError) ∧
  (∀ toRow toCol, isEmptyLocation b toRow toCol = Ok false →
                  moveTo b checker toRow toCol = Ok b) ∧
  (∀ playerDirection, validMovesFor b checker playerDirection = TypeError) ∧
  (∀ playerDirection toRow toCol,
     makeMove b checker playerDirection playerDirection toRow toCol = TypeError).
Proof.
  intros Hpos. repeat split.
  - unfold remove, delete_square. by rewrite Hpos.
  - intros toRow toCol He. unfold moveTo, delete_square. by rewrite He, Hpos.
  - intros toRow toCol He. unfold moveTo. by rewrite He.
  - intros playerDirection. unfold validMovesFor. by rewrite Hpos.
  - intros playerDirection toRow toCol. unfold makeMove, ramificationsOfMove, validMovesFor.
    by rewrite Z.eqb_refl, Hpos.
Qed.

Lemma unplaced_checker_throws_witness :
  remove (newBoard 8 noCheckers) 0%nat = TypeError ∧
  moveTo (newBoard 8 noCheckers) 0%nat 3 3 = TypeError ∧
  makeMove (newBoard 8 noCheckers) 0%nat 1 1 3 3 = TypeError.
Proof.
  destruct (unplaced_checker_throws (newBoard 8 noCheckers) 0%nat) as (Hr & Hm & _ & _ & Hmk);
    [reflexivity|].
  split; [exact Hr|]. split; [by apply Hm | apply Hmk].
Defined.

(** ** Board: [moveTo] and [remove] on a board in order *)

(** X4: [moveTo] onto an occupied square of the board is a no-op: the
    board returned is the board given, and nothing is dispatched. *)
Theorem moveTo_occupied_target_noop b checker toRow toCol :
  inBounds b toRow toCol → is_Some (square b !! (toRow, toCol)) →
  moveTo b checker toRow toCol = Ok b.
Proof.
  intros Hin [other Hsq]. unfold moveTo.
  by rewrite isEmptyLocation_cellAt, cellAt_inBounds, Hsq.
Qed.

Lemma moveTo_occupied_target_noop_witness :
  moveTo doubleJump 1%nat 2 2 = Ok doubleJump.
Proof.
  apply moveTo_occupied_target_noop.
  - unfold inBounds. simpl. lia.
  - by exists 2%nat.
Defined.

Lemma moveTo_Ok_cases b checker toRow toCol b1 :
  moveTo b checker toRow toCol = Ok b1 →
  b1 = b ∨
  ∃ row col,
    isEmptyLocation b toRow toCol = Ok true ∧ has_row b toRow = true ∧
    Checker.pos (heap b checker) = Some (row, col) ∧ has_row b row = true.
Proof.
  intros Hrun. pose proof Hrun as Hrun'. unfold moveTo in Hrun'.
  rewrite isEmptyLocation_cellAt in *. simpl in Hrun'.
  destruct (cellAt b toRow toCol); [left; congruence|]. right.
  apply bind_Ok in Hrun' as (b2 & Hdelete & Hrun').
  apply bind_Ok in Hrun' as (b3 & Hwrite & _).
  unfold delete_square in Hdelete.
  destruct (Checker.pos (heap b checker)) as [[row col]|]; [|discriminate].
  destruct (has_row b row) eqn:Hrow; [|discriminate]. injection Hdelete as <-.
  unfold write_square in Hwrite.
  destruct (has_row _ toRow) eqn:Hto; [|discriminate].
  by exists row, col.
Qed.

Lemma remove_Ok_pos b checker b' :
  remove b checker = Ok b' →
  ∃ row col, Checker.pos (heap b checker) = Some (row, col) ∧ has_row b row = true.
Proof.
  unfold remove, delete_square.
  destruct (Checker.pos (heap b checker)) as [[row col]|]; [|discriminate].
  destruct (has_row b row) eqn:Hrow; [|discriminate]. intros _. by exists row, col.
Qed.

Lemma add_Ok_cases b checker row col b' :
  add b checker row col = Ok b' →
  b' = b ∨ (isEmptyLocation b row col = Ok true ∧ has_row b row = true).
Proof.
  intros Hrun. pose proof Hrun as Hrun'. unfold add in Hrun'.
  rewrite isEmptyLocation_cellAt in *. simpl in Hrun'.
  destruct (cellAt b row col); [left; congruence|]. right.
  apply bind_Ok in Hrun' as (b2 & Hwrite & _).
  unfold write_square in Hwrite.
  destruct (has_row _ row) eqn:Hrow; [|discriminate]. done.
Qed.

Lemma keeps_refl b : keeps b b.
Proof. repeat split; auto. Qed.

Lemma keeps_trans b1 b2 b3 : keeps b1 b2 → keeps b2 b3 → keeps b1 b3.
Proof.
  intros (Hs & Hc & Hk & Hd) (Hs' & Hc' & Hk' & Hd'). repeat split.
  - congruence.
  - intros l. by rewrite Hc'.
  - auto.
  - by etrans.
Qed.

Lemma call_keeps b c b' : call b c = Ok b' → keeps b b'.
Proof.
  destruct c as [checker row col|checker toRow toCol|checker]; simpl; intros Hrun.
  - destruct (add_Ok_cases _ _ _ _ _ Hrun) as [->|[He Hrow]]; [apply keeps_refl|].
    rewrite (add_through _ _ _ _ He Hrow) in Hrun. injection Hrun as <-.
    repeat split; simpl.
    + intros l. destruct (decide (checker = l)) as [->|Hne].
      * by rewrite fn_lookup_insert.
      * by rewrite fn_lookup_insert_ne.
    + intros l. destruct (decide (checker = l)) as [->|Hne].
      * by rewrite fn_lookup_insert.
      * by rewrite fn_lookup_insert_ne.
    + by eexists.
  - destruct (moveTo_Ok_cases _ _ _ _ _ Hrun) as [->|(row & col & He & Hto & Hpos & Hrow)];
      [apply keeps_refl|].
    destruct (moveTo_through _ _ _ _ _ _ He Hto Hpos Hrow)
      as (b1 & Hrun1 & Hsize & _ & Hmoved & Hothers & Hlog).
    assert (b1 = b') as -> by congruence.
    repeat split.
    + done.
    + intros l. destruct (decide (l = checker)) as [->|Hne]; [|by rewrite Hothers].
      rewrite Hmoved. by destruct (canBeKing b checker toRow toCol).
    + intros l. destruct (decide (l = checker)) as [->|Hne]; [|by rewrite Hothers].
      rewrite Hmoved. by destruct (canBeKing b checker toRow toCol).
    + rewrite Hlog. by eexists.
  - destruct (remove_Ok_pos _ _ _ Hrun) as (row & col & Hpos & Hrow).
    rewrite (remove_through _ _ _ _ Hpos Hrow) in Hrun. injection Hrun as <-.
    repeat split; simpl; auto. by eexists.
Qed.

(** X5: whatever [add], [moveTo] and [remove] calls are made, in or out
    of their preconditions, a sequence that does not throw leaves the size
    of the board and the color of every checker as they were, never takes
    the crown from a king, and only appends to the events dispatched. *)
Theorem calls_keep_size_color_and_crown b cs b' :
  calls b cs = Ok b' →
  boardSize b' = boardSize b ∧
  (∀ l, Checker.color (heap b' l) = Checker.color (heap b l)) ∧
  (∀ l, Checker.isKing (heap b l) = true → Checker.isKing (heap b' l) = true) ∧
  dispatched b `prefix_of` dispatched b'.
Proof.
  revert b. induction cs as [|c cs IH]; intros b Hrun.
  - injection Hrun as <-. apply keeps_refl.
  - unfold calls in *. simpl in Hrun.
    apply bind_Ok in Hrun as (b1 & Hcall & Hrun).
    eapply keeps_trans; [by eapply call_keeps | by apply IH].
Qed.

Lemma calls_keep_size_color_and_crown_witness :
  boardSize afterDoubleJump = boardSize doubleJump ∧
  (∀ l, Checker.color (heap afterDoubleJump l) = Checker.color (heap doubleJump l)) ∧
  (∀ l, Checker.isKing (heap doubleJump l) = true →
        Checker.isKing (heap afterDoubleJump l) = true) ∧
  dispatched doubleJump `prefix_of` dispatched afterDoubleJump.
Proof.
  apply (calls_keep_size_color_and_crown doubleJump
           [CallMoveTo 1%nat 5 5; CallRemove 2%nat; CallRemove 3%nat]).
  vm_compute. reflexivity.
Defined.

(** ** Board: round trips *)

(** X6: [add] onto an empty square of the board followed by [remove] of
    the same checker gives back the grid as it was; no other checker is
    touched, the two events are dispatched, and the removed checker goes
    on recording the square it stood on. *)
Theorem add_then_remove_restores_grid b checker row col :
  emptyTarget b row col →
  ∃ b1 b2,
    add b checker row col = Ok b1 ∧
    remove b1 checker = Ok b2 ∧
    square b2 = square b ∧
    (∀ l, l ≠ checker → heap b2 l = heap b l) ∧
    Checker.pos (heap b2 checker) = Some (row, col) ∧
    dispatched b2 =
      dispatched b ++ [addDispatch b checker row col;
                       removeDispatch checker (placed (heap b checker) row col)].
Proof.
  intros Htarget.
  destruct (emptyTarget_isEmptyLocation _ _ _ Htarget) as [He Hrow].
  destruct Htarget as [_ Hnone].
  eexists. eexists. split; [by apply add_through|].
  split.
  - eapply remove_through; simpl; [by rewrite fn_lookup_insert | exact Hrow].
  - simpl. split; [|split; [|split]].
    + rewrite delete_insert_eq. by apply delete_id.
    + intros l Hl. by rewrite fn_lookup_insert_ne.
    + by rewrite fn_lookup_insert.
    + rewrite fn_lookup_insert, <- app_assoc. reflexivity.
Qed.

Lemma add_then_remove_restores_grid_witness :
  ∃ b1 b2,
    add doubleJump 9%nat 3 3 = Ok b1 ∧
    remove b1 9%nat = Ok b2 ∧
    square b2 = square doubleJump ∧
    (∀ l, l ≠ 9%nat → heap b2 l = heap doubleJump l) ∧
    Checker.pos (heap b2 9%nat) = Some (3, 3) ∧
    dispatched b2 =
      dispatched doubleJump ++ [addDispatch doubleJump 9%nat 3 3;
                                removeDispatch 9%nat (placed (heap doubleJump 9%nat) 3 3)].
Proof.
  apply add_then_remove_restores_grid.
  split; [unfold inBounds; simpl; lia | reflexivity].
Defined.

(** X7: moving a checker of the board to an empty square and back gives
    back the grid as it was, with the checker recording its first square
    again; its color is unchanged, and it is a king afterwards exactly
    when it was one or one of the two squares is on its far row. *)
Theorem moveTo_and_back_restores_grid b checker row col toRow toCol :
  square b !! (row, col) = Some checker →
  Checker.pos (heap b checker) = Some (row, col) →
  inBounds b row col →
  emptyTarget b toRow toCol →
  ∃ b1 b2,
    moveTo b checker toRow toCol = Ok b1 ∧
    moveTo b1 checker row col = Ok b2 ∧
    square b2 = square b ∧
    Checker.pos (heap b2 checker) = Some (row, col) ∧
    Checker.color (heap b2 checker) = Checker.color (heap b checker) ∧
    Checker.isKing (heap b2 checker) =
      Checker.isKing (heap b checker) || canBeKing b checker toRow toCol
                                      || canBeKing b checker row col ∧
    (∀ l, l ≠ checker → heap b2 l = heap b l).
Proof.
  intros Hsq Hpos Hin Htarget.
  destruct (emptyTarget_isEmptyLocation _ _ _ Htarget) as [He Hto].
  pose proof (inBounds_has_row _ _ _ Hin) as Hrow.
  destruct (moveTo_through _ _ _ _ _ _ He Hto Hpos Hrow)
    as (b1 & Hrun1 & Hsize1 & Hsquare1 & Hmoved1 & Hothers1 & _).
  assert (Hne : (toRow, toCol) ≠ (row, col)).
  { intros [= -> ->]. destruct Htarget as [_ Hnone]. congruence. }
  assert (Hin1 : inBounds b1 row col) by (unfold inBounds; by rewrite Hsize1).
  assert (He1 : isEmptyLocation b1 row col = Ok true).
  { rewrite isEmptyLocation_cellAt, cellAt_inBounds by done.
    rewrite Hsquare1, lookup_insert_ne, lookup_delete_eq by done. done. }
  assert (Hpos1 : Checker.pos (heap b1 checker) = Some (toRow, toCol))
    by (by rewrite Hmoved1).
  assert (Hto1 : has_row b1 toRow = true) by (unfold has_row; by rewrite Hsize1).
  destruct (moveTo_through _ _ _ _ _ _ He1 (inBounds_has_row _ _ _ Hin1) Hpos1 Hto1)
    as (b2 & Hrun2 & Hsize2 & Hsquare2 & Hmoved2 & Hothers2 & _).
  exists b1, b2. split; [done|]. split; [done|].
  assert (Hking : canBeKing b1 checker row col = canBeKing b checker row col).
  { unfold canBeKing. rewrite Hsize1, Hmoved1.
    by destruct (canBeKing b checker toRow toCol). }
  split; [|split; [|split; [|split]]].
  - rewrite Hsquare2, Hsquare1. apply map_eq. intros cell.
    destruct (decide ((row, col) = cell)) as [<-|Hcell].
    + by rewrite lookup_insert_eq.
    + rewrite lookup_insert_ne by done.
      destruct (decide ((toRow, toCol) = cell)) as [<-|Hcell'].
      * rewrite lookup_delete_eq. destruct Htarget as [_ Hnone]. by rewrite Hnone.
      * by rewrite lookup_delete_ne, lookup_insert_ne, lookup_delete_ne.
  - by rewrite Hmoved2.
  - rewrite Hmoved2, Hking, Hmoved1.
    by destruct (canBeKing b checker row col), (canBeKing b checker toRow toCol).
  - rewrite Hmoved2, Hking, Hmoved1.
    destruct (canBeKing b checker row col), (canBeKing b checker toRow toCol); simpl;
      by rewrite ?orb_true_r, ?orb_false_r.
  - intros l Hl. by rewrite Hothers2, Hothers1.
Qed.

Lemma moveTo_and_back_restores_grid_witness :
  ∃ b1 b2,
    moveTo redNearFarRow 1%nat 7 2 = Ok b1 ∧
    moveTo b1 1%nat 6 1 = Ok b2 ∧
    square b2 = square redNearFarRow ∧
    Checker.pos (heap b2 1%nat) = Some (6, 1) ∧
    Checker.color (heap b2 1%nat) = Checker.color (heap redNearFarRow 1%nat) ∧
    Checker.isKing (heap b2 1%nat) =
      Checker.isKing (heap redNearFarRow 1%nat) || canBeKing redNearFarRow 1%nat 7 2
                                                || canBeKing redNearFarRow 1%nat 6 1 ∧
    (∀ l, l ≠ 1%nat → heap b2 l = heap redNearFarRow l).
Proof.
  apply moveTo_and_back_restores_grid.
  - reflexivity.
  - reflexivity.
  - unfold inBounds. simpl. lia.
  - split; [unfold inBounds; simpl; lia | reflexivity].
Defined.

(** X8: [remove] does not look for the checker on the board.  Once a
    checker has been removed and another one added on the square it
    stood on, removing the first again empties that square: the second
    checker is off the grid, still recording the square, and the event
    dispatched names the first. *)
Theorem remove_again_evicts_the_newcomer b checker other row col :
  square b !! (row, col) = Some checker →
  Checker.pos (heap b checker) = Some (row, col) →
  inBounds b row col →
  other ≠ checker →
  ∃ b1 b2 b3,
    remove b checker = Ok b1 ∧
    add b1 other row col = Ok b2 ∧
    getCheckerAt b2 row col = Ok (Some other) ∧
    remove b2 checker = Ok b3 ∧
    getCheckerAt b3 row col = Ok None ∧
    Checker.pos (heap b3 other) = Some (row, col) ∧
    list.last (dispatched b3) = Some (removeDispatch checker (heap b checker)).
Proof.
  intros Hsq Hpos Hin Hne.
  pose proof (inBounds_has_row _ _ _ Hin) as Hrow.
  eexists. eexists. eexists.
  split; [by eapply remove_through|].
  split.
  { apply add_through; [|exact Hrow].
    rewrite isEmptyLocation_cellAt, cellAt_inBounds by done. simpl.
    by rewrite lookup_delete_eq. }
  split.
  { rewrite getCheckerAt_cellAt, cellAt_inBounds by done. simpl.
    by rewrite lookup_insert_eq. }
  split.
  { eapply remove_through; simpl; [|exact Hrow].
    rewrite fn_lookup_insert_ne by done. exact Hpos. }
  split.
  { rewrite getCheckerAt_cellAt, cellAt_inBounds by done. simpl.
    by rewrite lookup_delete_eq. }
  simpl. split; [by rewrite fn_lookup_insert|].
  rewrite fn_lookup_insert_ne by done. rewrite last_snoc.
  unfold removeDispatch, Checker.row, Checker.col. by rewrite Hpos.
Qed.

Lemma remove_again_evicts_the_newcomer_witness :
  ∃ b1 b2 b3,
    remove doubleJump 2%nat = Ok b1 ∧
    add b1 9%nat 2 2 = Ok b2 ∧
    getCheckerAt b2 2 2 = Ok (Some 9%nat) ∧
    remove b2 2%nat = Ok b3 ∧
    getCheckerAt b3 2 2 = Ok None ∧
    Checker.pos (heap b3 9%nat) = Some (2, 2) ∧
    list.last (dispatched b3) = Some (removeDispatch 2%nat (heap doubleJump 2%nat)).
Proof.
  apply remove_again_evicts_the_newcomer.
  - reflexivity.
  - reflexivity.
  - unfold inBounds. simpl. lia.
  - discriminate.
Defined.

(** ** Rules: what a chain is made of *)

Lemma half_sum_up a : (a + (a + 2)) / 2 = a + 1.
Proof. replace (a + (a + 2)) with ((a + 1) * 2) by lia. apply Z.div_mul. lia. Qed.

Lemma half_sum_down a : (a + (a - 2)) / 2 = a - 1.
Proof. replace (a + (a - 2)) with ((a - 1) * 2) by lia. apply Z.div_mul. lia. Qed.

Lemma takesJump_legalJump b checker playerDirection jumpSeq curRow curCol dest :
  dest ∈ possibleDestinations curRow curCol →
  takesJump b checker playerDirection jumpSeq curRow curCol dest →
  legalJump b checker playerDirection curRow curCol (jumped curRow curCol dest).
Proof.
  intros Hdest Htakes.
  destruct (takesJump_killed _ _ _ _ _ _ _ Htakes) as (other & Hin & Hsq & Hcolor & _).
  destruct Htakes as [Hvalid _].
  rewrite isValidJump_validJump in Hvalid. injection Hvalid as Hvalid.
  unfold validJump in Hvalid.
  repeat (apply andb_true_iff in Hvalid as [Hvalid ?]).
  apply isValidLocation_true in Hvalid.
  destruct (cellAt b dest.1 dest.2) eqn:Hcell; [discriminate|].
  rewrite cellAt_inBounds in Hcell by done.
  assert (Hhalf : (curRow + dest.1) / 2 * 2 = curRow + dest.1 ∧
                  (curCol + dest.2) / 2 * 2 = curCol + dest.2).
  { unfold possibleDestinations in Hdest.
    repeat (apply elem_of_cons in Hdest as [->|Hdest]); simpl;
      [| | | |by apply elem_of_nil in Hdest];
      rewrite ?half_sum_up, ?half_sum_down; lia. }
  destruct Hhalf as [Hr Hc].
  rewrite killed_jumped in Hsq.
  unfold legalJump, jumped, Jump.killed in *. simpl in *.
  replace ((dest.1 + curRow) / 2) with ((curRow + dest.1) / 2) in Hsq by (f_equal; lia).
  replace ((dest.2 + curCol) / 2) with ((curCol + dest.2) / 2) in Hsq by (f_equal; lia).
  split; [exact Hvalid|]. split; [exact Hcell|].
  split; [by apply Z.eqb_eq|]. split; [by apply Z.eqb_eq|].
  split.
  { intros Hking. rewrite Hking, andb_true_r in *.
    match goal with
    | H : negb (_ <? 0) = true |- _ => apply negb_true_iff, Z.ltb_ge in H; exact H
    end. }
  split; [lia|]. split; [lia|]. by exists other.
Qed.

Lemma validJumpsFor_fuel_path b checker playerDirection fuel :
  ∀ jumpSeq curRow curCol chains chain,
    validJumpsFor_fuel fuel b checker playerDirection jumpSeq curRow curCol = Ok chains →
    chain ∈ chains →
    ∃ added, chain = jumpSeq ++ added ∧ added ≠ [] ∧
             jumpPath b checker playerDirection curRow curCol added.
Proof.
  induction fuel as [|fuel IH]; intros jumpSeq curRow curCol chains chain Hrun Hin;
    [discriminate|].
  apply (validJumpsFor_fuel_elem _ _ _ _ _ _ _ _ Hrun) in Hin
    as (dest & Hdest & Htakes & Hfrom).
  pose proof (takesJump_legalJump _ _ _ _ _ _ _ Hdest Htakes) as Hlegal.
  destruct Hfrom as [->|(future & Hfuture & Hin)].
  - exists [jumped curRow curCol dest]. split; [done|]. split; [done|].
    simpl. by split.
  - destruct (IH _ _ _ _ _ Hfuture Hin) as (added & -> & _ & Hpath).
    exists (jumped curRow curCol dest :: added).
    split; [by rewrite <- app_assoc|]. split; [done|]. by split.
Qed.

Lemma search_chains_are_paths b checker playerDirection jumpSeq curRow curCol
    chains chain :
  validJumpsFor b checker playerDirection jumpSeq curRow curCol = Ok chains →
  chain ∈ chains →
  ∃ added, chain = jumpSeq ++ added ∧ added ≠ [] ∧
           jumpPath b checker playerDirection curRow curCol added.
Proof. unfold validJumpsFor. apply validJumpsFor_fuel_path. Qed.

Lemma chain_killed_NoDup b checker playerDirection curRow curCol chains chain :
  validJumpsFor b checker playerDirection [] curRow curCol = Ok chains →
  chain ∈ chains → NoDup (Jump.killed <$> chain).
Proof.
  apply (validJumpsFor_chains b checker playerDirection (λ js, NoDup (Jump.killed <$> js)));
    [|constructor].
  intros js r c dest Hjs Htakes.
  destruct (takesJump_killed _ _ _ _ _ _ _ Htakes) as (other & _ & _ & _ & Hfresh).
  rewrite fmap_app. apply list.NoDup_app. split; [done|]. split.
  - intros k Hk Hk'. simpl in Hk'. apply list_elem_of_singleton in Hk'. by subst.
  - simpl. apply NoDup_singleton.
Qed.

(** X9: every chain the search returns is the list of jumps already made
    followed by at least one jump, and the jumps it adds follow one
    another from the starting square, each a jump the grid allows: two
    squares diagonally onto an empty square of the board, over a checker
    of another color, and forward unless the checker is a king. *)
Theorem validJumpsFor_chains_are_paths b checker playerDirection jumpSeq curRow curCol
    chains chain :
  validJumpsFor b checker playerDirection jumpSeq curRow curCol = Ok chains →
  chain ∈ chains →
  ∃ added, chain = jumpSeq ++ added ∧ added ≠ [] ∧
           jumpPath b checker playerDirection curRow curCol added.
Proof. unfold validJumpsFor. apply validJumpsFor_fuel_path. Qed.

Lemma validJumpsFor_chains_are_paths_witness :
  ∃ added, [firstJump; secondJump] = [] ++ added ∧ added ≠ [] ∧
           jumpPath doubleJump 1%nat 1 1 1 added.
Proof.
  apply (validJumpsFor_chains_are_paths doubleJump 1%nat 1 [] 1 1
           [[firstJump; secondJump]; [firstJump]]).
  - vm_compute. reflexivity.
  - left.
Defined.

(** ** Rules: the simple steps of [validMovesFor] *)

(** A loop that appends to its accumulator what each turn computes. *)
Lemma forEach_appends {A C} (body : list C → A → res (list C)) (g : A → list C) l acc :
  (∀ acc' x, body acc' x = Ok (acc' ++ g x)) →
  forEach body l acc = Ok (acc ++ concat (g <$> l)).
Proof.
  intros Hbody. revert acc. induction l as [|x l IH]; intros acc; simpl.
  - by rewrite app_nil_r.
  - rewrite Hbody. simpl. rewrite IH, <- app_assoc. reflexivity.
Qed.

Lemma validMovesFor_steps b checker playerDirection moves row col :
  validMovesFor b checker playerDirection = Ok moves →
  Checker.pos (heap b checker) = Some (row, col) →
  ∃ chains jumpMoves,
    validJumpsFor b checker playerDirection [] row col = Ok chains ∧
    Forall2 (λ chain m, collapseJumpSequence b chain = Ok m) chains jumpMoves ∧
    moves = stepsOf b row col playerDirection (Checker.isKing (heap b checker)) ++ jumpMoves.
Proof.
  unfold validMovesFor. intros Hrun Hpos. rewrite Hpos in Hrun.
  apply bind_Ok in Hrun as (forward & Hforward & Hrun).
  apply bind_Ok in Hrun as (backward & Hbackward & Hrun).
  apply bind_Ok in Hrun as (chains & Hchains & Hrun).
  apply forEach_push in Hrun as (jumpMoves & -> & Hall).
  exists chains, jumpMoves. split; [done|]. split; [done|]. f_equal.
  rewrite (forEach_appends _
             (λ i, if negb (i =? 0) then stepTo b (row + playerDirection) (col + i) true else []))
    in Hforward.
  2:{ intros acc i. rewrite isEmptyLocation_cellAt. unfold stepTo.
      destruct (negb (i =? 0)); [|by rewrite app_nil_r].
      destruct (isValidLocation b (row + playerDirection) (col + i)); [|by rewrite app_nil_r].
      simpl. destruct (cellAt b (row + playerDirection) (col + i)); simpl;
        by rewrite ?app_nil_r. }
  rewrite (forEach_appends _
             (λ i, if negb (i =? 0)
                   then stepTo b (row - playerDirection) (col + i)
                               (Checker.isKing (heap b checker))
                   else []))
    in Hbackward.
  2:{ intros acc i. rewrite isEmptyLocation_cellAt. unfold stepTo.
      destruct (negb (i =? 0)); [|by rewrite app_nil_r].
      destruct (isValidLocation b (row - playerDirection) (col + i)); [|by rewrite app_nil_r].
      simpl. destruct (cellAt b (row - playerDirection) (col + i)); simpl;
        [by rewrite app_nil_r|].
      destruct (Checker.isKing (heap b checker)); by rewrite ?app_nil_r. }
  injection Hforward as <-. injection Hbackward as <-.
  unfold stepsOf. simpl. by rewrite !app_nil_r, <- !app_assoc.
Qed.

Lemma stepTo_elem b toRow toCol allowed m :
  m ∈ stepTo b toRow toCol allowed ↔
  m = Move.mk toCol toRow [] ∧ inBounds b toRow toCol ∧
  square b !! (toRow, toCol) = None ∧ allowed = true.
Proof.
  unfold stepTo, cellAt.
  destruct (isValidLocation b toRow toCol) eqn:Hvalid; simpl.
  - apply isValidLocation_true in Hvalid.
    destruct (square b !! (toRow, toCol)) eqn:Hsq; simpl.
    + rewrite elem_of_nil. split; [done|]. intros (_ & _ & [=] & _).
    + destruct allowed.
      * rewrite list_elem_of_singleton. tauto.
      * rewrite elem_of_nil. split; [done|]. intros (_ & _ & _ & [=]).
  - apply isValidLocation_false in Hvalid. rewrite elem_of_nil. tauto.
Qed.

Lemma collapseJumpSequence_captures b chain m :
  chain ≠ [] → collapseJumpSequence b chain = Ok m → Move.remove m ≠ [].
Proof.
  intros Hne Hm. apply collapseJumpSequence_Ok in Hm as (_ & _ & _ & _ & Hall).
  destruct Hall; [done|discriminate].
Qed.

(** X10: the candidates of [validMovesFor] that capture nothing are
    exactly the steps of one column to either side onto an empty square of
    the board, one row along the direction of the checker or, for a king
    only, one row against it. *)
Theorem validMovesFor_simple_steps b checker playerDirection moves row col toRow toCol :
  validMovesFor b checker playerDirection = Ok moves →
  Checker.pos (heap b checker) = Some (row, col) →
  Move.mk toCol toRow [] ∈ moves ↔
  (toCol = col - 1 ∨ toCol = col + 1) ∧
  (toRow = row + playerDirection ∨
   (toRow = row - playerDirection ∧ Checker.isKing (heap b checker) = true)) ∧
  inBounds b toRow toCol ∧
  square b !! (toRow, toCol) = None.
Proof.
  intros Hrun Hpos.
  destruct (validMovesFor_steps _ _ _ _ _ _ Hrun Hpos) as (chains & jumpMoves & Hchains & Hall & ->).
  rewrite elem_of_app. unfold stepsOf. rewrite !elem_of_app, !stepTo_elem. split.
  - intros [[H|[H|[H|H]]]|Hjump].
    + destruct H as ([= -> ->] & Hin & Hsq & _).
      split; [lia|]. split; [by left|]. by split.
    + destruct H as ([= -> ->] & Hin & Hsq & _).
      split; [lia|]. split; [by left|]. by split.
    + destruct H as ([= -> ->] & Hin & Hsq & Hking).
      split; [lia|]. split; [by right|]. by split.
    + destruct H as ([= -> ->] & Hin & Hsq & Hking).
      split; [lia|]. split; [by right|]. by split.
    + exfalso. apply list_elem_of_lookup in Hjump as [i Hi].
      destruct (Forall2_lookup_r _ _ _ _ _ Hall Hi) as (chain & Hchain & Hcollapse).
      assert (Hin : chain ∈ chains) by (apply list_elem_of_lookup; eauto).
      apply (collapseJumpSequence_captures _ _ _
               (proj1 (validJumpsFor_chain_occupied _ _ _ _ _ _ _ Hchains Hin)) Hcollapse).
      reflexivity.
  - intros (Hcol & Hrow & Hin & Hsq). left.
    replace (col + -1) with (col - 1) by lia.
    destruct Hrow as [->|[-> Hking]], Hcol as [->| ->]; tauto.
Qed.

Lemma validMovesFor_simple_steps_witness :
  Move.mk 0 2 [] ∈ [Move.mk 0 2 [];
                    Move.mk 5 5 [Captured.mk 2 2 "black" false; Captured.mk 4 4 "black" false];
                    Move.mk 3 3 [Captured.mk 2 2 "black" false]] ↔
  (0 = 1 - 1 ∨ 0 = 1 + 1) ∧
  (2 = 1 + 1 ∨ (2 = 1 - 1 ∧ Checker.isKing (heap doubleJump 1%nat) = true)) ∧
  inBounds doubleJump 2 0 ∧
  square doubleJump !! (2, 0) = None.
Proof.
  apply (validMovesFor_simple_steps doubleJump 1%nat 1).
  - vm_compute. reflexivity.
  - reflexivity.
Defined.

(** ** Rules: where the candidates of [validMovesFor] lead *)

Lemma jumpPath_last b checker playerDirection js :
  ∀ fromRow fromCol final,
    jumpPath b checker playerDirection fromRow fromCol js →
    list.last js = Some final →
    inBounds b (Jump.row final) (Jump.col final) ∧
    square b !! (Jump.row final, Jump.col final) = None.
Proof.
  induction js as [|j js IH]; intros fromRow fromCol final Hpath Hlast; [discriminate|].
  destruct Hpath as [Hlegal Hpath]. destruct js as [|j' js].
  - injection Hlast as <-. destruct Hlegal as (Hin & Hsq & _). by split.
  - eapply IH; [exact Hpath|]. exact Hlast.
Qed.

Lemma validMovesFor_jump_candidate b checker playerDirection row col chains jumpMoves m :
  validJumpsFor b checker playerDirection [] row col = Ok chains →
  Forall2 (λ chain m, collapseJumpSequence b chain = Ok m) chains jumpMoves →
  m ∈ jumpMoves →
  ∃ chain final,
    chain ∈ chains ∧ list.last chain = Some final ∧
    Move.to_col m = Jump.col final ∧ Move.to_row m = Jump.row final ∧
    Forall2 (records b) chain (Move.remove m).
Proof.
  intros Hchains Hall Hin. apply list_elem_of_lookup in Hin as [i Hi].
  destruct (Forall2_lookup_r _ _ _ _ _ Hall Hi) as (chain & Hchain & Hcollapse).
  apply collapseJumpSequence_Ok in Hcollapse as (final & Hlast & Hc & Hr & Hrec).
  exists chain, final. split; [apply list_elem_of_lookup; eauto|]. done.
Qed.

Lemma candidate_destination b checker playerDirection moves m :
  validMovesFor b checker playerDirection = Ok moves →
  m ∈ moves →
  inBounds b (Move.to_row m) (Move.to_col m) ∧
  square b !! (Move.to_row m, Move.to_col m) = None.
Proof.
  intros Hrun Hin.
  destruct (validMovesFor_Ok _ _ _ _ Hrun) as (row & col & _ & _ & _ & Hpos & _).
  destruct (validMovesFor_steps _ _ _ _ _ _ Hrun Hpos)
    as (chains & jumpMoves & Hchains & Hall & ->).
  apply elem_of_app in Hin as [Hin|Hin].
  - unfold stepsOf in Hin. rewrite !elem_of_app, !stepTo_elem in Hin.
    destruct Hin as [H|[H|[H|H]]]; destruct H as (-> & Hb & Hsq & _); by split.
  - destruct (validMovesFor_jump_candidate _ _ _ _ _ _ _ _ Hchains Hall Hin)
      as (chain & final & Hchain & Hlast & -> & -> & _).
    destruct (search_chains_are_paths _ _ _ _ _ _ _ _ Hchains Hchain)
      as (added & Heq & _ & Hpath).
    simpl in Heq. subst added. by eapply jumpPath_last.
Qed.

(** X11: [validMovesFor] never proposes a destination off the board or
    on an occupied square. *)
Theorem validMovesFor_destinations_empty_on_board b checker playerDirection moves m :
  validMovesFor b checker playerDirection = Ok moves →
  m ∈ moves →
  inBounds b (Move.to_row m) (Move.to_col m) ∧
  square b !! (Move.to_row m, Move.to_col m) = None.
Proof. apply candidate_destination. Qed.

Lemma validMovesFor_destinations_empty_on_board_witness :
  inBounds doubleJump 5 5 ∧ square doubleJump !! (5, 5) = None.
Proof.
  apply (validMovesFor_destinations_empty_on_board doubleJump 1%nat 1
           [Move.mk 0 2 [];
            Move.mk 5 5 [Captured.mk 2 2 "black" false; Captured.mk 4 4 "black" false];
            Move.mk 3 3 [Captured.mk 2 2 "black" false]]
           (Move.mk 5 5 [Captured.mk 2 2 "black" false; Captured.mk 4 4 "black" false])).
  - vm_compute. reflexivity.
  - right. left.
Defined.

Lemma candidate_captures b checker playerDirection moves m :
  validMovesFor b checker playerDirection = Ok moves →
  m ∈ moves →
  Forall (λ e, ∃ dead,
            inBounds b (Captured.row e) (Captured.col e) ∧
            square b !! (Captured.row e, Captured.col e) = Some dead ∧
            Captured.color e = Checker.color (heap b dead) ∧
            Captured.isKing e = Checker.isKing (heap b dead) ∧
            Captured.color e ≠ Checker.color (heap b checker))
         (Move.remove m) ∧
  NoDup ((λ e, (Captured.row e, Captured.col e)) <$> Move.remove m).
Proof.
  intros Hrun Hin.
  destruct (validMovesFor_Ok _ _ _ _ Hrun) as (row & col & _ & _ & _ & Hpos & _).
  destruct (validMovesFor_steps _ _ _ _ _ _ Hrun Hpos)
    as (chains & jumpMoves & Hchains & Hall & ->).
  apply elem_of_app in Hin as [Hin|Hin].
  - unfold stepsOf in Hin. rewrite !elem_of_app, !stepTo_elem in Hin.
    destruct Hin as [H|[H|[H|H]]]; destruct H as (-> & _); simpl; split; constructor.
  - destruct (validMovesFor_jump_candidate _ _ _ _ _ _ _ _ Hchains Hall Hin)
      as (chain & final & Hchain & _ & _ & _ & Hrec).
    destruct (validJumpsFor_chain_occupied _ _ _ _ _ _ _ Hchains Hchain) as [_ Hocc].
    pose proof (chain_killed_NoDup _ _ _ _ _ _ _ Hchains Hchain) as Hnodup.
    clear -Hrec Hocc Hnodup. revert Hocc Hnodup.
    induction Hrec as [|j e js es Hje Hrec IH]; intros Hocc Hnodup.
    + split; constructor.
    + apply list.Forall_cons_1 in Hocc as [(_ & dead' & Hsq' & Hcolor) Hocc].
      rewrite fmap_cons in Hnodup. apply list.NoDup_cons in Hnodup as [Hfresh Hnodup].
      destruct (IH Hocc Hnodup) as [IH1 IH2].
      destruct Hje as (dead & Hb & Hsq & ->).
      assert (dead' = dead) as -> by congruence.
      split.
      * constructor; [|done]. exists dead. simpl.
        split; [exact Hb|]. split; [exact Hsq|]. by repeat split.
      * rewrite fmap_cons. apply list.NoDup_cons. split; [|done]. simpl.
        intros Hk. apply Hfresh. clear -Hk Hrec.
        apply list_elem_of_fmap in Hk as (e & Heq & He).
        apply list_elem_of_lookup in He as [i Hi].
        destruct (Forall2_lookup_r _ _ _ _ _ Hrec Hi) as (j' & Hj' & (d & _ & _ & ->)).
        simpl in Heq. apply list_elem_of_fmap. exists j'.
        split; [exact Heq|]. apply list_elem_of_lookup. eauto.
Qed.

(** X12: a candidate that captures does so on squares of the board, each
    holding a checker of a color other than the mover's, and records the
    color and the king flag of that checker; the captured squares of one
    candidate are all different. *)
Theorem validMovesFor_captures_other_colors b checker playerDirection moves m :
  validMovesFor b checker playerDirection = Ok moves →
  m ∈ moves →
  Forall (λ e, ∃ dead,
            inBounds b (Captured.row e) (Captured.col e) ∧
            square b !! (Captured.row e, Captured.col e) = Some dead ∧
            Captured.color e = Checker.color (heap b dead) ∧
            Captured.isKing e = Checker.isKing (heap b dead) ∧
            Captured.color e ≠ Checker.color (heap b checker))
         (Move.remove m) ∧
  NoDup ((λ e, (Captured.row e, Captured.col e)) <$> Move.remove m).
Proof. apply candidate_captures. Qed.

Lemma validMovesFor_captures_other_colors_witness :
  Forall (λ e, ∃ dead,
            inBounds doubleJump (Captured.row e) (Captured.col e) ∧
            square doubleJump !! (Captured.row e, Captured.col e) = Some dead ∧
            Captured.color e = Checker.color (heap doubleJump dead) ∧
            Captured.isKing e = Checker.isKing (heap doubleJump dead) ∧
            Captured.color e ≠ Checker.color (heap doubleJump 1%nat))
         [Captured.mk 2 2 "black" false; Captured.mk 4 4 "black" false] ∧
  NoDup ((λ e, (Captured.row e, Captured.col e)) <$>
           [Captured.mk 2 2 "black" false; Captured.mk 4 4 "black" false]).
Proof.
  apply (validMovesFor_captures_other_colors doubleJump 1%nat 1
           [Move.mk 0 2 [];
            Move.mk 5 5 [Captured.mk 2 2 "black" false; Captured.mk 4 4 "black" false];
            Move.mk 3 3 [Captured.mk 2 2 "black" false]]
           (Move.mk 5 5 [Captured.mk 2 2 "black" false; Captured.mk 4 4 "black" false])).
  - vm_compute. reflexivity.
  - right. left.
Defined.

(** ** Rules: a legal move is carried out *)

Lemma removals_through es :
  ∀ b,
    Forall (standsOn b) es → NoDup (capturedSquare <$> es) →
    ∃ b', forEach removeAtSquare es b = Ok b' ∧
          boardSize b' = boardSize b ∧
          heap b' = heap b ∧
          (∀ cell, square b' !! cell =
                   if bool_decide (cell ∈ capturedSquare <$> es) then None
                   else square b !! cell) ∧
          dispatched b' = dispatched b ++ capturedDispatches b es.
Proof.
  induction es as [|e es IH]; intros b Hall Hnodup.
  - exists b. simpl. repeat split; auto. unfold capturedDispatches. simpl.
    by rewrite app_nil_r.
  - apply list.Forall_cons_1 in Hall as [(dead & Hin & Hsq & Hpos) Hall].
    rewrite fmap_cons in Hnodup. apply list.NoDup_cons in Hnodup as [Hfresh Hnodup].
    pose proof (inBounds_has_row _ _ _ Hin) as Hrow.
    assert (Hstep : removeAtSquare b e =
                    Ok (mkBoard (boardSize b) (delete (capturedSquare e) (square b)) (heap b)
                                (dispatched b ++ [removeDispatch dead (heap b dead)]))).
    { unfold removeAtSquare. rewrite getCheckerAt_cellAt, cellAt_inBounds by done.
      unfold capturedSquare in *. rewrite Hsq. simpl.
      rewrite (remove_through _ _ _ _ Hpos Hrow).
      unfold removeDispatch, Checker.row, Checker.col. by rewrite Hpos. }
    set (b2 := mkBoard (boardSize b) (delete (capturedSquare e) (square b)) (heap b)
                       (dispatched b ++ [removeDispatch dead (heap b dead)])) in *.
    assert (Hkept : ∀ e', e' ∈ es → square b2 !! capturedSquare e' = square b !! capturedSquare e').
    { intros e' He'. simpl. apply lookup_delete_ne. intros Heq. apply Hfresh.
      rewrite Heq. by apply list_elem_of_fmap_2. }
    destruct (IH b2) as (b' & Hrun & Hsize & Hheap & Hsquare & Hlog).
    { rewrite list.Forall_forall in Hall |- *. intros e' He'.
      destruct (Hall e' He') as (dead' & Hin' & Hsq' & Hpos').
      exists dead'. split; [exact Hin'|]. split; [|exact Hpos'].
      by rewrite Hkept. }
    { exact Hnodup. }
    exists b'. simpl. rewrite Hstep. simpl. split; [exact Hrun|].
    split; [exact Hsize|]. split; [exact Hheap|]. split.
    + intros cell. rewrite Hsquare. simpl.
      destruct (decide (cell = capturedSquare e)) as [->|Hne].
      * rewrite lookup_delete_eq.
        rewrite (bool_decide_eq_true_2 (capturedSquare e ∈ _ :: _)) by left.
        by destruct (bool_decide _).
      * rewrite lookup_delete_ne by done.
        destruct (bool_decide (cell ∈ capturedSquare <$> es)) eqn:Hmem.
        -- apply bool_decide_eq_true in Hmem.
           by rewrite bool_decide_eq_true_2 by (by right).
        -- apply bool_decide_eq_false in Hmem.
           rewrite bool_decide_eq_false_2; [done|].
           intros Hc. apply elem_of_cons in Hc as [Hc|Hc]; done.
    + rewrite Hlog. simpl. rewrite <- app_assoc. f_equal.
      unfold capturedDispatches. rewrite fmap_cons. simpl. rewrite Hsq. simpl. f_equal.
      f_equal. apply list_fmap_ext. intros i e' Hi.
      rewrite Hkept; [done|]. apply list_elem_of_lookup. eauto.
Qed.

Lemma makeMove_through b checker playerDirection toRow toCol row col moves m :
  gridShape b → repInvariant b →
  square b !! (row, col) = Some checker →
  validMovesFor b checker playerDirection = Ok moves →
  List.find (matches toRow toCol) moves = Some m →
  ∃ r b',
    makeMove b checker playerDirection playerDirection toRow toCol = Ok (Some r, b') ∧
    boardSize b' = boardSize b ∧
    (∀ cell, square b' !! cell = gridAfter b checker (row, col) (toRow, toCol) m cell) ∧
    Checker.pos (heap b' checker) = Some (toRow, toCol) ∧
    (∀ l, l ≠ checker → heap b' l = heap b l) ∧
    dispatched b' =
      dispatched b ++ moveDispatches b checker toRow toCol
                   ++ capturedDispatches b (Move.remove m).
Proof.
  intros Hshape Hinv Hsq Hrun Hfind.
  pose proof (repInvariant_pos _ _ _ _ Hinv Hsq) as Hpos.
  pose proof (Hshape _ _ _ Hsq) as Hrow.
  apply List.find_some in Hfind as Hfound. destruct Hfound as [Hin Hmatch].
  apply list_elem_of_In in Hin.
  unfold matches in Hmatch. apply andb_true_iff in Hmatch as [Hc Hr].
  apply Z.eqb_eq in Hc, Hr.
  destruct (candidate_destination _ _ _ _ _ Hrun Hin) as [Hdest Hfree].
  rewrite Hc, Hr in Hdest, Hfree.
  destruct (candidate_captures _ _ _ _ _ Hrun Hin) as [Hcaptured Hnodup].
  assert (Htarget : emptyTarget b toRow toCol) by (by split).
  destruct (emptyTarget_isEmptyLocation _ _ _ Htarget) as [He Hto].
  destruct (moveTo_through _ _ _ _ _ _ He Hto Hpos Hrow)
    as (b1 & Hrun1 & Hsize1 & Hsquare1 & Hmoved1 & Hothers1 & Hlog1).
  assert (Hstill : ∀ e, e ∈ Move.remove m →
            ∃ dead, inBounds b (Captured.row e) (Captured.col e) ∧
                    square b !! capturedSquare e = Some dead ∧
                    dead ≠ checker ∧
                    square b1 !! capturedSquare e = Some dead ∧
                    heap b1 dead = heap b dead).
  { intros e He'. rewrite list.Forall_forall in Hcaptured.
    destruct (Hcaptured e He') as (dead & Hin' & Hsq' & Hcol & _ & Hother).
    assert (Hne : dead ≠ checker) by (intros ->; congruence).
    exists dead. split; [done|]. split; [done|]. split; [done|]. split; [|by apply Hothers1].
    rewrite Hsquare1. unfold capturedSquare.
    rewrite lookup_insert_ne by (intros Heq; rewrite <- Heq in Hsq'; congruence).
    rewrite lookup_delete_ne by (intros Heq; rewrite <- Heq in Hsq'; congruence).
    done. }
  destruct (removals_through (Move.remove m) b1) as (b' & Hrun2 & Hsize2 & Hheap2 & Hsquare2 & Hlog2).
  { apply list.Forall_forall. intros e He'.
    destruct (Hstill e He') as (dead & Hin' & Hsq' & Hne & Hsq1 & Hheap1).
    exists dead. split; [unfold inBounds; by rewrite Hsize1|]. split; [done|].
    rewrite Hheap1. by apply (repInvariant_pos _ _ _ _ Hinv). }
  { exact Hnodup. }
  eexists. exists b'. split.
  { unfold makeMove, ramificationsOfMove. rewrite Z.eqb_refl. simpl.
    rewrite Hrun. simpl. rewrite Hfind. simpl. rewrite Hc, Hr, Hrun1. simpl.
    rewrite Hrun2. simpl. reflexivity. }
  split; [congruence|]. split.
  { intros cell. rewrite Hsquare2, Hsquare1. unfold gridAfter.
    destruct (decide (cell = (toRow, toCol))) as [->|Hne].
    - rewrite (bool_decide_eq_true_2 ((toRow, toCol) = (toRow, toCol))) by done.
      rewrite bool_decide_eq_false_2; [by rewrite lookup_insert_eq|].
      intros Hmem. apply list_elem_of_fmap in Hmem as (e & Heq & He').
      destruct (Hstill e He') as (dead & _ & Hsq' & _). rewrite <- Heq in Hsq'. congruence.
    - rewrite (bool_decide_eq_false_2 (cell = (toRow, toCol))) by done.
      rewrite lookup_insert_ne by done.
      destruct (bool_decide (cell ∈ capturedSquare <$> Move.remove m)) eqn:Hmem.
      + apply bool_decide_eq_true in Hmem. by rewrite bool_decide_eq_true_2 by (by right).
      + apply bool_decide_eq_false in Hmem.
        destruct (decide (cell = (row, col))) as [->|Hne'].
        * rewrite lookup_delete_eq. by rewrite bool_decide_eq_true_2 by (by left).
        * rewrite lookup_delete_ne by done. rewrite bool_decide_eq_false_2; [done|].
          intros [?|?]; done. }
  split; [by rewrite Hheap2, Hmoved1|].
  split; [intros l Hl; by rewrite Hheap2, Hothers1|].
  rewrite Hlog2, Hlog1, <- app_assoc. f_equal. f_equal.
  unfold capturedDispatches. f_equal. apply list_fmap_ext. intros i e Hi.
  destruct (Hstill e) as (dead & _ & Hsq' & _ & Hsq1 & Hheap1);
    [apply list_elem_of_lookup; eauto|].
  by rewrite Hsq', Hsq1, Hheap1.
Qed.

Lemma gridShape_decide b :
  bool_decide (map_Forall (λ rc _, has_row b rc.1 = true) (square b)) = true → gridShape b.
Proof.
  rewrite bool_decide_eq_true. intros Hall row col checker Hsq. exact (Hall _ _ Hsq).
Qed.

Lemma doubleJump_gridShape : gridShape doubleJump.
Proof. apply gridShape_decide. vm_compute. reflexivity. Qed.

Lemma doubleJump_repInvariant : repInvariant doubleJump.
Proof. apply checkRep_repInvariant. vm_compute. reflexivity. Qed.

(** X13: on a board in order, [makeMove] carries out the first candidate
    of [validMovesFor] that has the destination asked for.  It returns a
    result; the mover stands on the destination and records it, its first
    square and the captured squares are empty, every other cell and
    checker is as it was; and the events dispatched are those of the move
    followed by one [remove] per capture, in the order of the captures. *)
Theorem makeMove_carries_out_candidate b checker playerDirection toRow toCol row col moves m :
  gridShape b → repInvariant b →
  square b !! (row, col) = Some checker →
  validMovesFor b checker playerDirection = Ok moves →
  List.find (matches toRow toCol) moves = Some m →
  ∃ r b',
    makeMove b checker playerDirection playerDirection toRow toCol = Ok (Some r, b') ∧
    (∀ cell, square b' !! cell = gridAfter b checker (row, col) (toRow, toCol) m cell) ∧
    Checker.pos (heap b' checker) = Some (toRow, toCol) ∧
    (∀ l, l ≠ checker → heap b' l = heap b l) ∧
    dispatched b' =
      dispatched b ++ moveDispatches b checker toRow toCol
                   ++ capturedDispatches b (Move.remove m).
Proof.
  intros Hshape Hinv Hsq Hrun Hfind.
  destruct (makeMove_through _ _ _ _ _ _ _ _ _ Hshape Hinv Hsq Hrun Hfind)
    as (r & b' & Hmove & _ & Hrest).
  by exists r, b'.
Qed.

Lemma makeMove_carries_out_candidate_witness :
  ∃ r b',
    makeMove doubleJump 1%nat 1 1 5 5 = Ok (Some r, b') ∧
    (∀ cell, square b' !! cell =
             gridAfter doubleJump 1%nat (1, 1) (5, 5)
               (Move.mk 5 5 [Captured.mk 2 2 "black" false; Captured.mk 4 4 "black" false])
               cell) ∧
    Checker.pos (heap b' 1%nat) = Some (5, 5) ∧
    (∀ l, l ≠ 1%nat → heap b' l = heap doubleJump l) ∧
    dispatched b' =
      dispatched doubleJump ++ moveDispatches doubleJump 1%nat 5 5
        ++ capturedDispatches doubleJump
             [Captured.mk 2 2 "black" false; Captured.mk 4 4 "black" false].
Proof.
  apply (makeMove_carries_out_candidate doubleJump 1%nat 1 5 5 1 1
           [Move.mk 0 2 [];
            Move.mk 5 5 [Captured.mk 2 2 "black" false; Captured.mk 4 4 "black" false];
            Move.mk 3 3 [Captured.mk 2 2 "black" false]]).
  - exact doubleJump_gridShape.
  - exact doubleJump_repInvariant.
  - reflexivity.
  - vm_compute. reflexivity.
  - reflexivity.
Defined.

(** X14: on a board in order, [makeMove] of a checker that stands on the
    board never throws, whatever the directions and the destination, and
    the board it leaves is in order again: every occupied cell holds a
    checker recording that cell, and [checkRep] has nothing to report. *)
Theorem makeMove_keeps_board_in_order b checker turnDirection playerDirection toRow toCol :
  gridShape b → repInvariant b → onBoard b checker →
  ∃ result b',
    makeMove b checker turnDirection playerDirection toRow toCol = Ok (result, b') ∧
    gridShape b' ∧ repInvariant b' ∧ checkRep b' = true.
Proof.
  intros Hshape Hinv (row & col & Hsq).
  pose proof (repInvariant_pos _ _ _ _ Hinv Hsq) as Hpos.
  assert (Hsame : ∃ (result : option Ramifications.t) b',
            Ok (None, b) = Ok (result, b') ∧ gridShape b' ∧ repInvariant b' ∧ checkRep b' = true).
  { exists None, b. split; [done|]. split; [done|]. split; [done|].
    by apply checkRep_repInvariant. }
  destruct (decide (playerDirection = turnDirection)) as [<-|Hturn].
  2:{ unfold makeMove, ramificationsOfMove. apply Z.eqb_neq in Hturn. by rewrite Hturn. }
  destruct (validMovesFor_returns b checker playerDirection) as [moves Hrun]; [by eexists|].
  destruct (List.find (matches toRow toCol) moves) as [m|] eqn:Hfind.
  2:{ unfold makeMove, ramificationsOfMove. rewrite Z.eqb_refl. simpl.
      rewrite Hrun. simpl. by rewrite Hfind. }
  destruct (makeMove_through _ _ _ _ _ _ _ _ _ Hshape Hinv Hsq Hrun Hfind)
    as (r & b' & Hmove & Hsize & Hgrid & Hmoved & Hothers & _).
  exists (Some r), b'. split; [done|].
  apply List.find_some in Hfind as [Hin Hmatch]. apply list_elem_of_In in Hin.
  unfold matches in Hmatch. apply andb_true_iff in Hmatch as [Hc Hr].
  apply Z.eqb_eq in Hc, Hr.
  destruct (candidate_destination _ _ _ _ _ Hrun Hin) as [Hdest _].
  rewrite Hc, Hr in Hdest.
  assert (Hcells : ∀ r0 c0 l, square b' !! (r0, c0) = Some l →
            ((r0, c0) = (toRow, toCol) ∧ l = checker) ∨
            ((r0, c0) ≠ (row, col) ∧ square b !! (r0, c0) = Some l)).
  { intros r0 c0 l. rewrite Hgrid. unfold gridAfter.
    destruct (bool_decide ((r0, c0) = (toRow, toCol))) eqn:E1.
    - apply bool_decide_eq_true in E1. intros [= <-]. by left.
    - destruct (bool_decide ((r0, c0) = (row, col) ∨ _)) eqn:E2; [discriminate|].
      apply bool_decide_eq_false in E2. intros Hl. right.
      split; [intros Heq; apply E2; by left | done]. }
  assert (Hinv' : repInvariant b').
  { intros r0 c0 l Hl. destruct (Hcells _ _ _ Hl) as [[[= -> ->] ->]|[Hne Hold]].
    - unfold Checker.row, Checker.col. by rewrite Hmoved.
    - rewrite Hothers; [by apply Hinv|].
      intros ->. apply Hne. pose proof (repInvariant_pos _ _ _ _ Hinv Hold). congruence. }
  split; [|split; [exact Hinv' | by apply checkRep_repInvariant]].
  intros r0 c0 l Hl. unfold has_row. rewrite Hsize.
  destruct (Hcells _ _ _ Hl) as [[[= -> ->] ->]|[Hne Hold]].
  - by eapply inBounds_has_row.
  - by eapply Hshape.
Qed.

Lemma makeMove_keeps_board_in_order_witness :
  ∃ result b',
    makeMove doubleJump 1%nat 1 1 5 5 = Ok (result, b') ∧
    gridShape b' ∧ repInvariant b' ∧ checkRep b' = true.
Proof.
  apply makeMove_keeps_board_in_order.
  - exact doubleJump_gridShape.
  - exact doubleJump_repInvariant.
  - by exists 1, 1.
Defined.

(** ** Board: enumerating the grid *)

Lemma allOnBoard_gridShape b : allOnBoard b → gridShape b.
Proof. intros Hall row col checker Hsq. eapply inBounds_has_row, Hall, Hsq. Qed.

Lemma cells_Permutation b : cells b ≡ₚ map_to_list (square b).
Proof. apply sorting.merge_sort_Permutation. Qed.

Lemma cells_elem b row col checker :
  (row, col, checker) ∈ cells b ↔ square b !! (row, col) = Some checker.
Proof. rewrite cells_Permutation. apply elem_of_map_to_list. Qed.

Lemma cells_NoDup b : NoDup (fst <$> cells b).
Proof. rewrite cells_Permutation. apply NoDup_fst_map_to_list. Qed.

Lemma getAllCheckers_elem b checker : checker ∈ getAllCheckers b ↔ onBoard b checker.
Proof.
  unfold getAllCheckers, onBoard. rewrite list_elem_of_fmap. split.
  - intros ([[row col] l] & -> & Hin). exists row, col. by apply cells_elem.
  - intros (row & col & Hsq). exists (row, col, checker). split; [done|]. by apply cells_elem.
Qed.

(** X15: on a board in order [getAllCheckers] lists the checkers of
    the grid, each once: a checker is in the list exactly when some cell
    holds it, no checker is listed twice, and the list has one entry per
    occupied cell. *)
Theorem getAllCheckers_lists_the_grid b :
  repInvariant b →
  (∀ checker, checker ∈ getAllCheckers b ↔ onBoard b checker) ∧
  length (getAllCheckers b) = size (square b) ∧
  NoDup (getAllCheckers b).
Proof.
  intros Hinv. split; [apply getAllCheckers_elem|]. split.
  - unfold getAllCheckers. rewrite length_fmap, cells_Permutation. apply length_map_to_list.
  - unfold getAllCheckers.
    apply (NoDup_fmap_2_strong snd).
    + intros [[r1 c1] l1] [[r2 c2] l2] H1 H2 Heq. simpl in Heq. subst l2.
      apply cells_elem in H1, H2.
      pose proof (repInvariant_pos _ _ _ _ Hinv H1).
      pose proof (repInvariant_pos _ _ _ _ Hinv H2). congruence.
    + eapply NoDup_fmap_1. apply cells_NoDup.
Qed.

Lemma doubleJump_allOnBoard : allOnBoard doubleJump.
Proof.
  intros row col checker. unfold doubleJump. simpl.
  intros H. apply lookup_insert_Some in H as [[[= <- <-] _]|[_ H]];
    [unfold inBounds; simpl; lia|].
  apply lookup_insert_Some in H as [[[= <- <-] _]|[_ H]];
    [unfold inBounds; simpl; lia|].
  apply lookup_singleton_Some in H as [[= <- <-] _]. unfold inBounds. simpl. lia.
Qed.

Lemma getAllCheckers_lists_the_grid_witness :
  (∀ checker, checker ∈ getAllCheckers doubleJump ↔ onBoard doubleJump checker) ∧
  length (getAllCheckers doubleJump) = size (square doubleJump) ∧
  NoDup (getAllCheckers doubleJump).
Proof. apply getAllCheckers_lists_the_grid. exact doubleJump_repInvariant. Defined.

(** ** Board: [removeAt] and [clear] *)

(** X16: on a board in order, [removeAt] of an occupied cell does what
    [remove] of the checker standing there does: the same board results,
    with the same event.  Unlike [remove] it reads the cell, so it leaves
    an empty cell alone. *)
Theorem removeAt_agrees_with_remove b row col checker :
  repInvariant b → has_row b row = true →
  square b !! (row, col) = Some checker →
  ∃ b', removeAt b row col = Ok (Removed b') ∧
        remove b checker = Ok b' ∧
        square b' = delete (row, col) (square b) ∧
        dispatched b' = dispatched b ++ [removeDispatch checker (heap b checker)].
Proof.
  intros Hinv Hrow Hsq.
  pose proof (repInvariant_pos _ _ _ _ Hinv Hsq) as Hpos.
  eexists. split; [|split; [by eapply remove_through|]].
  - unfold removeAt, read_square, delete_square. rewrite Hrow, Hsq. reflexivity.
  - simpl. split; [done|].
    unfold removeDispatch, Checker.row, Checker.col. by rewrite Hpos.
Qed.

Lemma removeAt_agrees_with_remove_witness :
  ∃ b', removeAt doubleJump 2 2 = Ok (Removed b') ∧
        remove doubleJump 2%nat = Ok b' ∧
        square b' = delete (2, 2) (square doubleJump) ∧
        dispatched b' = dispatched doubleJump ++ [removeDispatch 2%nat (heap doubleJump 2%nat)].
Proof.
  apply removeAt_agrees_with_remove.
  - exact doubleJump_repInvariant.
  - reflexivity.
  - reflexivity.
Defined.

Lemma clearCells_through cs : ∀ b,
  NoDup (fst <$> cs) →
  (∀ r c l, (r, c, l) ∈ cs → square b !! (r, c) = Some l ∧ has_row b r = true) →
  ∃ b', clearCells cs b = Ok (Removed b') ∧
        boardSize b' = boardSize b ∧ heap b' = heap b ∧
        (∀ cell, square b' !! cell =
                 if decide (cell ∈ fst <$> cs) then None else square b !! cell) ∧
        dispatched b' = dispatched b ++ (clearDispatch (heap b) <$> cs).
Proof.
  induction cs as [|[[r c] l] cs IH]; intros b Hnd Hcs.
  - exists b. split; [done|]. split; [done|]. split; [done|].
    split; [|by rewrite app_nil_r].
    intros cell. destruct (decide _) as [Hin|]; [|done]. by apply elem_of_nil in Hin.
  - rewrite fmap_cons in Hnd. apply list.NoDup_cons in Hnd as [Hnotin Hnd].
    destruct (Hcs r c l) as [Hsq Hrow]; [left|].
    set (b1 := dispatchBoardEvent (with_square b (delete (r, c) (square b))) "remove"
                 (RemoveDetails l (Some r) (Some c))).
    assert (Hstep : clearCells ((r, c, l) :: cs) b = clearCells cs b1).
    { simpl. unfold removeAt, read_square, delete_square. by rewrite Hrow, Hsq. }
    destruct (IH b1 Hnd) as (b' & Hrun & Hsize & Hheap & Hgrid & Hdisp).
    { intros r' c' l' Hin. destruct (Hcs r' c' l') as [Hsq' Hrow']; [by right|].
      split; [|exact Hrow'].
      simpl. rewrite lookup_delete_ne; [done|].
      intros Heq. apply Hnotin. rewrite Heq.
      apply list_elem_of_fmap. by exists (r', c', l'). }
    exists b'. rewrite Hstep. split; [done|]. split; [done|]. split; [done|]. split.
    + intros cell. rewrite Hgrid. simpl.
      destruct (decide (cell ∈ fst <$> cs)) as [Hin|Hout].
      * rewrite decide_True; [done|]. by right.
      * destruct (decide (cell = (r, c))) as [->|Hne].
        -- rewrite decide_True; [|by left]. by rewrite lookup_delete_eq.
        -- rewrite decide_False.
           ++ by rewrite lookup_delete_ne.
           ++ intros Hin. apply elem_of_cons in Hin as [?|?]; done.
    + rewrite Hdisp. simpl. by rewrite <- app_assoc.
Qed.

Lemma clear_through b :
  gridShape b →
  ∃ b', clear b = Ok (Removed b') ∧
        square b' = ∅ ∧ boardSize b' = boardSize b ∧ heap b' = heap b ∧
        dispatched b' = dispatched b ++ (clearDispatch (heap b) <$> cells b).
Proof.
  intros Hshape.
  destruct (clearCells_through (cells b) b (cells_NoDup b))
    as (b' & Hrun & Hsize & Hheap & Hgrid & Hdisp).
  { intros r c l Hin. apply cells_elem in Hin. split; [done|]. eapply Hshape, Hin. }
  exists b'. split; [exact Hrun|]. split; [|done].
  apply map_eq. intros [r c]. rewrite Hgrid, lookup_empty.
  destruct (decide _) as [|Hout]; [done|].
  destruct (square b !! (r, c)) as [l|] eqn:Hsq; [|done].
  exfalso. apply Hout. apply list_elem_of_fmap. exists (r, c, l). split; [done|].
  by apply cells_elem.
Qed.

(** X17: on a board whose checkers all stand on squares of the board,
    [clear] goes through and leaves no checker in the grid.  It dispatches
    one remove event per cell that was occupied, row by row and within a
    row by column, naming the cell and its checker; the checkers themselves
    are not written, so each goes on recording the square it stood on. *)
Theorem clear_empties_the_grid b :
  allOnBoard b →
  ∃ b', clear b = Ok (Removed b') ∧
        square b' = ∅ ∧ getAllCheckers b' = [] ∧
        boardSize b' = boardSize b ∧ heap b' = heap b ∧
        Sorted.Sorted cellBefore (cells b) ∧
        dispatched b' = dispatched b ++ (clearDispatch (heap b) <$> cells b).
Proof.
  intros Hall.
  destruct (clear_through b (allOnBoard_gridShape b Hall))
    as (b' & Hrun & Hgrid & Hsize & Hheap & Hdisp).
  exists b'. split; [done|]. split; [done|]. split.
  { unfold getAllCheckers, cells. rewrite Hgrid. by rewrite map_to_list_empty. }
  split; [done|]. split; [done|]. split; [|done].
  apply sorting.Sorted_merge_sort. apply _.
Qed.

Lemma clear_empties_the_grid_witness :
  ∃ b', clear doubleJump = Ok (Removed b') ∧
        square b' = ∅ ∧ getAllCheckers b' = [] ∧
        boardSize b' = boardSize doubleJump ∧ heap b' = heap doubleJump ∧
        Sorted.Sorted cellBefore (cells doubleJump) ∧
        dispatched b' = dispatched doubleJump ++ (clearDispatch (heap doubleJump) <$> cells doubleJump).
Proof. apply clear_empties_the_grid. exact doubleJump_allOnBoard. Defined.

(** ** rules.js: [shuffle] *)

Lemma insert_found_Permutation {A} (l : list A) i x y :
  l !! i = Some y → y :: <[i := x]> l ≡ₚ x :: l.
Proof.
  revert i. induction l as [|z l IH]; intros [|i] Hi; simplify_eq/=.
  - apply perm_swap.
  - rewrite perm_swap. rewrite (IH i Hi). apply perm_swap.
Qed.

Lemma swap_Permutation {A} (array : list A) current top : swap array current top ≡ₚ array.
Proof.
  unfold swap.
  destruct (array !! current) as [tmp|] eqn:Hc; [|done].
  destruct (array !! top) as [atTop|] eqn:Ht; [|done].
  revert current top Hc Ht.
  induction array as [|z l IH]; intros [|i] [|j] Hc Ht; simplify_eq/=.
  - done.
  - symmetry. rewrite <- (insert_found_Permutation l j tmp atTop Ht). done.
  - by apply insert_found_Permutation.
  - f_equiv. by apply IH.
Qed.

Lemma shuffleDown_Permutation {A} random top : ∀ k (array : list A),
  (shuffleDown random k top array).1 ≡ₚ array ∧
  (shuffleDown random k top array).2 = (k + top)%nat.
Proof.
  induction top as [|top IH]; intros k array; simpl.
  - split; [done|lia].
  - destruct (IH (S k) (swap array (drawBelow random k (S top)) (S top))) as [Hp Hk].
    split; [|lia]. rewrite Hp. apply swap_Permutation.
Qed.

Lemma shuffle_Permutation {A} random k (array : list A) :
  (shuffle random k array).1 ≡ₚ array.
Proof. apply shuffleDown_Permutation. Qed.

(** X18: whatever numbers the generator gives, [shuffle] returns a
    rearrangement of its argument: the same elements, each as often as
    before, hence as many; it asks the generator for one number less than
    the array has elements, and for none on an empty array. *)
Theorem shuffle_rearranges {A} random k (array : list A) :
  (shuffle random k array).1 ≡ₚ array ∧
  length (shuffle random k array).1 = length array ∧
  (shuffle random k array).2 = (k + (length array - 1))%nat.
Proof.
  split; [apply shuffle_Permutation|]. split.
  - by rewrite shuffle_Permutation.
  - apply shuffleDown_Permutation.
Qed.

(** ** rules.js: [makeRandomMove] *)






(** ** Board: [prepareNewGame] *)

Lemma forEach_snoc {A B} (body : B → A → res B) l x acc :
  forEach body (l ++ [x]) acc = forEach body l acc ≫= λ acc', body acc' x.
Proof.
  revert acc. induction l as [|y l IH]; intros acc; simpl.
  - by destruct (body acc x).
  - destruct (body acc y); simpl; auto.
Qed.

Lemma seqZ_snoc i : 0 ≤ i → seqZ 0 (i + 1) = seqZ 0 i ++ [i].
Proof.
  intros Hi. rewrite seqZ_app by lia. f_equal.
Qed.

Lemma cellAt_None b row col : square b !! (row, col) = None → cellAt b row col = None.
Proof. intros H. unfold cellAt. rewrite H. by destruct (isValidLocation _ _ _). Qed.

Lemma newGameTurn_through b0 fresh i bi :
  3 ≤ boardSize b0 → distinctRefs (boardSize b0) fresh →
  0 ≤ i < boardSize b0 →
  setUpTo b0 fresh i bi →
  ∃ bi', newGameTurn fresh bi i = Ok bi' ∧ setUpTo b0 fresh (i + 1) bi'.
Proof.
  intros Hn Hfresh Hi (Hsize & Hgrid & Hcount & Hheap & Hlog).
  pose proof (Z.mod_pos_bound i 2 ltac:(lia)) as Hmod.
  destruct (Hfresh i i Hi Hi) as [Hrb _].
  assert (Hfree : ∀ row, square bi !! (row, i) = None).
  { intros row. rewrite Hgrid. unfold standardSetup. simpl.
    rewrite bool_decide_eq_false_2; [done|lia]. }
  unfold newGameTurn. simpl.
  rewrite add_through; cycle 1.
  { rewrite isEmptyLocation_cellAt, cellAt_None; [done|]. apply Hfree. }
  { unfold has_row. simpl. apply andb_true_iff. lia. }
  simpl. rewrite add_through; cycle 1.
  { rewrite isEmptyLocation_cellAt, cellAt_None; [done|]. simpl.
    rewrite lookup_insert_ne; [apply Hfree|]. intros [= Heq]. lia. }
  { unfold has_row. simpl. apply andb_true_iff. lia. }
  eexists. split; [reflexivity|]. simpl. rewrite Hsize.
  rewrite fn_lookup_insert_ne by done. rewrite !fn_lookup_insert.
  rewrite fn_lookup_insert_ne by done. rewrite fn_lookup_insert.
  split; [done|]. split; [|split; [|split]]; simpl.
  - intros [row col]. unfold standardSetup. simpl.
    destruct (decide ((row, col) = (boardSize b0 - 1 - i `mod` 2, i))) as [[= -> ->]|Hne2].
    { rewrite lookup_insert_eq.
      rewrite bool_decide_eq_true_2 by lia.
      rewrite bool_decide_eq_false_2 by lia.
      by rewrite bool_decide_eq_true_2. }
    rewrite lookup_insert_ne by done.
    destruct (decide ((row, col) = (1 - i `mod` 2, i))) as [[= -> ->]|Hne1].
    { rewrite lookup_insert_eq.
      rewrite bool_decide_eq_true_2 by lia.
      by rewrite bool_decide_eq_true_2. }
    rewrite lookup_insert_ne by done. rewrite Hgrid. unfold standardSetup. simpl.
    destruct (decide (col = i)) as [->|Hcol].
    + rewrite (bool_decide_eq_false_2 (0 ≤ i < i)) by lia.
      rewrite bool_decide_eq_true_2 by lia.
      rewrite bool_decide_eq_false_2 by congruence.
      by rewrite bool_decide_eq_false_2 by congruence.
    + destruct (decide (0 ≤ col < i)).
      * rewrite (bool_decide_eq_true_2 (0 ≤ col < i)) by lia.
        by rewrite (bool_decide_eq_true_2 (0 ≤ col < i + 1)) by lia.
      * rewrite (bool_decide_eq_false_2 (0 ≤ col < i)) by lia.
        by rewrite (bool_decide_eq_false_2 (0 ≤ col < i + 1)) by lia.
  - rewrite map_size_insert_None.
    + rewrite map_size_insert_None by apply Hfree. lia.
    + rewrite lookup_insert_ne; [apply Hfree|]. intros [= Heq]. lia.
  - intros j Hj. destruct (decide (j = i)) as [->|Hji].
    + rewrite fn_lookup_insert_ne by done. by rewrite !fn_lookup_insert.
    + destruct (Hfresh j i ltac:(lia) Hi) as [H1 H2]. destruct (H2 Hji) as [H3 H4].
      destruct (Hfresh i j Hi ltac:(lia)) as [H5 _].
      rewrite !fn_lookup_insert_ne by done.
      apply Hheap. lia.
  - rewrite Hlog, <- !app_assoc. f_equal.
    rewrite seqZ_snoc by lia. by rewrite fmap_app, concat_app.
Qed.

Lemma newGameTurns_through b0 fresh :
  3 ≤ boardSize b0 → distinctRefs (boardSize b0) fresh → square b0 = ∅ →
  ∀ k : nat, Z.of_nat k ≤ boardSize b0 →
    ∃ bi, forEach (newGameTurn fresh) (seqZ 0 (Z.of_nat k)) b0 = Ok bi ∧
          setUpTo b0 fresh (Z.of_nat k) bi.
Proof.
  intros Hn Hfresh Hempty. induction k as [|k IH]; intros Hk.
  - exists b0. split; [done|]. split; [done|]. split; [|split; [|split]].
    + intros cell. rewrite Hempty, lookup_empty. unfold standardSetup.
      by rewrite bool_decide_eq_false_2 by lia.
    + by rewrite Hempty, map_size_empty.
    + intros i Hi. lia.
    + simpl. by rewrite app_nil_r.
  - destruct IH as (bi & Hrun & Hinv); [lia|].
    destruct (newGameTurn_through b0 fresh (Z.of_nat k) bi Hn Hfresh ltac:(lia) Hinv)
      as (bi' & Hturn & Hinv').
    exists bi'. replace (Z.of_nat (S k)) with (Z.of_nat k + 1) by lia.
    rewrite seqZ_snoc by lia. rewrite forEach_snoc, Hrun. done.
Qed.

Lemma length_getAllCheckers b : length (getAllCheckers b) = size (square b).
Proof.
  unfold getAllCheckers. rewrite length_fmap, cells_Permutation. apply length_map_to_list.
Qed.

Lemma standardSetup_Some n fresh cell l :
  standardSetup n fresh n cell = Some l →
  0 ≤ cell.2 < n ∧
  ((cell.1 = 1 - cell.2 `mod` 2 ∧ l = (fresh cell.2).1) ∨
   (cell.1 = n - 1 - cell.2 `mod` 2 ∧ l = (fresh cell.2).2)).
Proof.
  unfold standardSetup.
  destruct (bool_decide (0 ≤ cell.2 < n)) eqn:E; [|discriminate].
  apply bool_decide_eq_true in E. split; [done|].
  destruct (bool_decide (cell.1 = 1 - cell.2 `mod` 2)) eqn:E1.
  { apply bool_decide_eq_true in E1. left. split; congruence. }
  destruct (bool_decide (cell.1 = n - 1 - cell.2 `mod` 2)) eqn:E2; [|discriminate].
  apply bool_decide_eq_true in E2. right. split; congruence.
Qed.

(** X20: on a board of size three or more whose checkers all stand on
    squares of the board, [prepareNewGame] goes through and leaves the
    standard setup and nothing else: in every column a new red checker on
    row 1 (even column) or 0 (odd column) and a new black one on the last
    row (even column) or the row before (odd column), none of them a king,
    each recording its square; twice [boardSize] checkers in all.  The
    remove events of [clear] are followed by the two add events of each
    column, red first. *)
Theorem prepareNewGame_standard_setup b fresh :
  allOnBoard b → 3 ≤ boardSize b → distinctRefs (boardSize b) fresh →
  ∃ b',
    prepareNewGame b fresh = Ok (Removed b') ∧
    boardSize b' = boardSize b ∧
    (∀ cell, square b' !! cell = standardSetup (boardSize b) fresh (boardSize b) cell) ∧
    length (getAllCheckers b') = Z.to_nat (2 * boardSize b) ∧
    (∀ i, 0 ≤ i < boardSize b →
          heap b' (fresh i).1 = redAt i ∧ heap b' (fresh i).2 = blackAt (boardSize b) i) ∧
    allOnBoard b' ∧ repInvariant b' ∧
    dispatched b' =
      dispatched b ++ (clearDispatch (heap b) <$> cells b)
                   ++ concat (setupDispatches (boardSize b) fresh <$> seqZ 0 (boardSize b)).
Proof.
  intros Hall Hn Hfresh.
  destruct (clear_through b (allOnBoard_gridShape b Hall))
    as (b0 & Hclear & Hempty & Hsize0 & Hheap0 & Hlog0).
  rewrite <- Hsize0 in Hn, Hfresh.
  destruct (newGameTurns_through b0 fresh Hn Hfresh Hempty (Z.to_nat (boardSize b0)))
    as (b' & Hrun & Hsize & Hgrid & Hcount & Hheap & Hlog); [lia|].
  rewrite Z2Nat.id in Hrun, Hgrid, Hcount, Hheap, Hlog by lia.
  exists b'. split.
  { unfold prepareNewGame. rewrite Hclear. simpl.
    change (forEach _ (seqZ 0 (boardSize b0)) b0)
      with (forEach (newGameTurn fresh) (seqZ 0 (boardSize b0)) b0).
    by rewrite Hrun. }
  rewrite <- Hsize0. split; [done|]. split; [done|]. split.
  { rewrite length_getAllCheckers. lia. }
  split; [done|]. split; [|split].
  - intros row col l Hl. rewrite Hgrid in Hl.
    apply standardSetup_Some in Hl as [Hcol Hrow]. simpl in *.
    pose proof (Z.mod_pos_bound col 2 ltac:(lia)).
    unfold inBounds. rewrite Hsize. lia.
  - intros row col l Hl. rewrite Hgrid in Hl.
    apply standardSetup_Some in Hl as [Hcol Hrow]. simpl in *.
    destruct Hrow as [[-> ->]|[-> ->]].
    + by rewrite (proj1 (Hheap col Hcol)).
    + by rewrite (proj2 (Hheap col Hcol)).
  - by rewrite Hlog, Hlog0, <- app_assoc.
Qed.

Lemma prepareNewGame_standard_setup_witness :
  ∃ b',
    prepareNewGame doubleJump (λ i, (Z.to_nat (10 + 2 * i), Z.to_nat (11 + 2 * i))) =
      Ok (Removed b') ∧
    boardSize b' = boardSize doubleJump ∧
    (∀ cell, square b' !! cell =
             standardSetup (boardSize doubleJump)
               (λ i, (Z.to_nat (10 + 2 * i), Z.to_nat (11 + 2 * i)))
               (boardSize doubleJump) cell) ∧
    length (getAllCheckers b') = Z.to_nat (2 * boardSize doubleJump) ∧
    (∀ i, 0 ≤ i < boardSize doubleJump →
          heap b' (Z.to_nat (10 + 2 * i), Z.to_nat (11 + 2 * i)).1 = redAt i ∧
          heap b' (Z.to_nat (10 + 2 * i), Z.to_nat (11 + 2 * i)).2 =
            blackAt (boardSize doubleJump) i) ∧
    allOnBoard b' ∧ repInvariant b' ∧
    dispatched b' =
      dispatched doubleJump ++ (clearDispatch (heap doubleJump) <$> cells doubleJump)
        ++ concat (setupDispatches (boardSize doubleJump)
                     (λ i, (Z.to_nat (10 + 2 * i), Z.to_nat (11 + 2 * i)))
                   <$> seqZ 0 (boardSize doubleJump)).
Proof.
  apply (prepareNewGame_standard_setup doubleJump
           (λ i, (Z.to_nat (10 + 2 * i), Z.to_nat (11 + 2 * i)))).
  - exact doubleJump_allOnBoard.
  - simpl. lia.
  - intros i j Hi Hj. simpl in *. lia.
Defined.

(** X21: on a board of size two the rows of the two colors coincide:
    [prepareNewGame] places the red checker of each column and refuses the
    black one, whose square the red one has just taken.  The board is left
    with two red checkers and no black one, the two black checkers never
    get a position, and no add event is dispatched for them. *)
Theorem prepareNewGame_size_two_has_no_black b fresh :
  allOnBoard b → boardSize b = 2 → distinctRefs 2 fresh →
  ∃ b',
    prepareNewGame b fresh = Ok (Removed b') ∧
    square b' = <[(0, 1) := (fresh 1).1]> {[(1, 0) := (fresh 0).1]} ∧
    heap b' (fresh 0).1 = redAt 0 ∧ heap b' (fresh 1).1 = redAt 1 ∧
    heap b' (fresh 0).2 = Checker.new "black" false ∧
    heap b' (fresh 1).2 = Checker.new "black" false ∧
    dispatched b' =
      dispatched b ++ (clearDispatch (heap b) <$> cells b)
        ++ [mkDispatch (mkBoardEvent "add" (AddDetails (fresh 0).1 1 0)) (redAt 0);
            mkDispatch (mkBoardEvent "add" (AddDetails (fresh 1).1 0 1)) (redAt 1)].
Proof.
  intros Hall Hsz Hfresh.
  destruct (clear_through b (allOnBoard_gridShape b Hall))
    as (b0 & Hclear & Hempty & Hsize0 & Hheap0 & Hlog0).
  rewrite Hsz in Hsize0.
  destruct (Hfresh 0 0 ltac:(lia) ltac:(lia)) as [H00 _].
  destruct (Hfresh 1 1 ltac:(lia) ltac:(lia)) as [H11 _].
  destruct (Hfresh 0 1 ltac:(lia) ltac:(lia)) as [H01 Hne].
  destruct Hne as [Hr01 Hb01]; [lia|].
  destruct (Hfresh 1 0 ltac:(lia) ltac:(lia)) as [H10 _].
  unfold prepareNewGame. rewrite Hclear. simpl. rewrite Hsize0.
  change (seqZ 0 2) with [0; 1]. simpl.
  change (0 `mod` 2) with 0. change (1 `mod` 2) with 1.
  change (1 - 0) with 1. change (1 - 1) with 0.
  rewrite add_through; cycle 1.
  { rewrite isEmptyLocation_cellAt, cellAt_None; [done|]. simpl.
    by rewrite Hempty, lookup_empty. }
  { unfold has_row. simpl. by rewrite Hsize0. }
  simpl. rewrite Hsize0. change (2 - 1 - 0) with 1.
  rewrite add_blocked; cycle 1.
  { rewrite isEmptyLocation_cellAt, cellAt_inBounds.
    - simpl. by rewrite lookup_insert_eq.
    - unfold inBounds. simpl. lia. }
  simpl. rewrite add_through; cycle 1.
  { rewrite isEmptyLocation_cellAt, cellAt_None; [done|]. simpl.
    rewrite lookup_insert_ne by done. by rewrite Hempty, lookup_empty. }
  { unfold has_row. simpl. done. }
  simpl. change (2 - 1 - 1) with 0.
  rewrite add_blocked; cycle 1.
  { rewrite isEmptyLocation_cellAt, cellAt_inBounds.
    - simpl. by rewrite lookup_insert_eq.
    - unfold inBounds. simpl. lia. }
  eexists. split; [reflexivity|]. simpl.
  rewrite Hempty. split; [by rewrite insert_empty|].
  rewrite Hlog0, <- !app_assoc.
  unfold redAt, placed.
  repeat (rewrite ?fn_lookup_insert; rewrite ?fn_lookup_insert_ne by done).
  done.
Qed.

Lemma prepareNewGame_size_two_has_no_black_witness :
  ∃ b',
    prepareNewGame (newBoard 2 noCheckers) (λ i, (Z.to_nat (2 * i), Z.to_nat (2 * i + 1))) =
      Ok (Removed b') ∧
    square b' = <[(0, 1) := 2%nat]> {[(1, 0) := 0%nat]} ∧
    heap b' 0%nat = redAt 0 ∧ heap b' 2%nat = redAt 1 ∧
    heap b' 1%nat = Checker.new "black" false ∧
    heap b' 3%nat = Checker.new "black" false ∧
    dispatched b' =
      [] ++ (clearDispatch noCheckers <$> cells (newBoard 2 noCheckers))
        ++ [mkDispatch (mkBoardEvent "add" (AddDetails 0%nat 1 0)) (redAt 0);
            mkDispatch (mkBoardEvent "add" (AddDetails 2%nat 0 1)) (redAt 1)].
Proof.
  apply (prepareNewGame_size_two_has_no_black (newBoard 2 noCheckers)
           (λ i, (Z.to_nat (2 * i), Z.to_nat (2 * i + 1)))).
  - intros row col checker H. simpl in H. by rewrite lookup_empty in H.
  - reflexivity.
  - intros i j Hi Hj. simpl. lia.
Defined.

(** ** Board: the random reads *)

Lemma pickRandom_elem {A} random k (array : list A) :
  match pickRandom random k array with
  | Some x => x ∈ array
  | None => array = []
  end.
Proof.
  unfold pickRandom, drawBelow.
  destruct (array !! _) as [x|] eqn:E.
  - eapply list_elem_of_lookup_2, E.
  - apply lookup_ge_None in E. destruct array as [|y array]; [done|]. simpl in E.
    pose proof (Nat.mod_upper_bound (random k) (S (length array - 0)) ltac:(lia)).
    lia.
Qed.

(** X22: [getRandomChecker] returns a checker of the grid whenever
    there is one, whatever number the generator gives; it returns
    [undefined] on the empty grid only.  [getRandomNonKing] returns a
    checker of the grid that is no king whenever there is one, and
    [undefined] only when every checker of the grid is a king. *)
Theorem random_checkers_come_from_the_grid b random k :
  match getRandomChecker b random k with
  | Some checker => onBoard b checker
  | None => square b = ∅
  end ∧
  match getRandomNonKing b random k with
  | Some checker => onBoard b checker ∧ Checker.isKing (heap b checker) = false
  | None => ∀ checker, onBoard b checker → Checker.isKing (heap b checker) = true
  end.
Proof.
  split.
  - unfold getRandomChecker.
    pose proof (pickRandom_elem random k (getAllCheckers b)) as H.
    destruct (pickRandom random k (getAllCheckers b)) as [checker|].
    + by apply getAllCheckers_elem.
    + apply map_size_empty_inv. by rewrite <- length_getAllCheckers, H.
  - unfold getRandomNonKing.
    pose proof (pickRandom_elem random k
                  (filter (λ checker, Checker.isKing (heap b checker) = false)
                          (getAllCheckers b))) as H.
    destruct (pickRandom random k _) as [checker|].
    + apply list_elem_of_filter in H as [Hking Hin]. split; [|done].
      by apply getAllCheckers_elem.
    + intros checker Hon. apply getAllCheckers_elem in Hon.
      destruct (Checker.isKing (heap b checker)) eqn:Hking; [done|].
      assert (Hin : checker ∈ filter (λ checker, Checker.isKing (heap b checker) = false)
                                     (getAllCheckers b)).
      { by apply list_elem_of_filter. }
      rewrite H in Hin. by apply elem_of_nil in Hin.
Qed.

(** X23: [getRandomEmptyLocation] returns an empty square of the board
    whenever there is one, whatever number the generator gives; it returns
    [undefined] only when every square of the board is occupied. *)
Theorem getRandomEmptyLocation_is_empty b random k :
  match getRandomEmptyLocation b random k with
  | Some (row, col) => emptyTarget b row col
  | None => ∀ row col, inBounds b row col → is_Some (square b !! (row, col))
  end.
Proof.
  unfold getRandomEmptyLocation.
  set (availLocs := seqZ 0 (boardSize b) ≫= _).
  assert (Havail : ∀ row col, (row, col) ∈ availLocs ↔ emptyTarget b row col).
  { intros row col. unfold availLocs, emptyTarget, inBounds.
    rewrite list_elem_of_bind. split.
    - intros (r & Hin & Hr). apply list_elem_of_bind in Hin as (c & Hin & Hc).
      apply elem_of_seqZ in Hr, Hc.
      destruct (square b !! (r, c)) eqn:Hsq; [by apply elem_of_nil in Hin|].
      apply list_elem_of_singleton in Hin as [= -> ->]. split; [lia|done].
    - intros [[Hr Hc] Hsq]. exists row. split; [|apply elem_of_seqZ; lia].
      apply list_elem_of_bind. exists col. split; [|apply elem_of_seqZ; lia].
      rewrite Hsq. by apply list_elem_of_singleton. }
  pose proof (pickRandom_elem random k availLocs) as H.
  destruct (pickRandom random k availLocs) as [[row col]|].
  - by apply Havail.
  - intros row col Hin. destruct (square b !! (row, col)) eqn:Hsq; [by eexists|].
    assert (Hmem : (row, col) ∈ availLocs) by (by apply Havail).
    rewrite H in Hmem. by apply elem_of_nil in Hmem.
Qed.
